(** * Batched sink dispatch in Benthos: the [cache] output and the [redis] processor

    A shallow embedding of
      - internal/impl/pure/output_cache.go  (CacheWriter: NewCacheWriter,
        writeMulti, WriteWithContext), and
      - the redis processor (redisProc: the four operators, getRedisOperator,
        execRaw, ProcessBatch),
    with the properties of their dispatch protocol.

    Go code that mutates objects and talks to external stores is written in
    state-passing style: the resource manager (for the cache output) and the
    redis world (for the processor) are threaded through every call, and each
    carries a trace of the externally visible actions in program order. *)

From stdpp Require Import gmap strings list fin_maps.
From Stdlib Require Import ZArith Lia DecimalString.

Set Warnings "-register-all,-clear-no-such-hyp".

Local Open Scope Z_scope.
Local Open Scope string_scope.
Local Open Scope list_scope.

(** ** Go basics *)

(** A Go [error] value, identified with its message; [fmt.Errorf("p: %w", e)]
    is [p +:+ e]. *)
Definition error : Type := string.

(** [[]byte] *)
Definition bytes : Type := string.

(** [time.Duration]: a count of nanoseconds. *)
Definition Duration : Type := Z.

(** The Go pair [(T, error)] of a fallible call. *)
Inductive result (A : Type) : Type :=
| Ok (a : A)
| Err (e : error).
Arguments Ok {A} a.
Arguments Err {A} e.

Definition is_err {A} (r : result A) : bool :=
  match r with Ok _ => false | Err _ => true end.

Definition err_of {A} (r : result A) : option error :=
  match r with Ok _ => None | Err e => Some e end.

(** [interface{}] values as they travel between messages, mappings and the
    redis client.  [VNumber] is a [json.Number] (a decimal literal kept as
    text); [VFloat64] holds the IEEE-754 bit pattern of a [float64]. *)
Inductive Value : Type :=
| VNil
| VBool (b : bool)
| VNumber (n : string)
| VInt64 (i : Z)
| VFloat64 (bits : Z)
| VString (s : string)
| VBytes (b : bytes)
| VArray (vs : list Value)
| VObject (kvs : list (string * Value)).

(** The functions of the Go standard library that the two files call.  They
    are outside the repository, so the development is parametric in them. *)
Class GoStd : Type := {
  (* time.ParseDuration *)
  ParseDuration : string -> result Duration;
  (* strconv.Atoi *)
  Atoi : string -> result Z;
  (* strconv.AppendInt(nil, n, 10) *)
  AppendInt : Z -> bytes;
  (* json.Number.Int64, json.Number.Float64 *)
  Number_Int64 : string -> result Z;
  Number_Float64 : string -> result Z;
  (* encoding/json, as used by the message payload accessors *)
  json_Marshal : Value -> result bytes;
  json_Unmarshal : bytes -> result Value
}.

(** ** Messages and batches *)

Module message.

Inductive Payload : Type :=
| Raw (b : bytes)
| Structured (v : Value).

(** Modelled from the spec: the message type ([message.Part], wrapped by
    [service.Message]) is declared outside the two files.  Per the data
    model it is a payload (raw bytes or a decoded structured value),
    per-message metadata and an attachable item error. *)
Record Part : Type := mkPart {
  payload : Payload;
  metadata : gmap string string;
  perr : option error
}.

Definition NewPart (b : bytes) : Part := mkPart (Raw b) ∅ None.

(** An ordered sequence of messages. *)
Abbreviation Batch := (list Part).

Definition Len (m : Batch) : nat := length m.

Section Accessors.
Context `{GoStd}.

(** Modelled from the spec: the payload accessors of a message, declared
    with the message type outside the two files.  [AsBytes]: the raw
    payload, or the JSON encoding of the structured one. *)
Definition AsBytes (p : Part) : result bytes :=
  match payload p with
  | Raw b => Ok b
  | Structured v => json_Marshal v
  end.

(** [AsStructured]: the structured payload, or the JSON decoding of the raw one. *)
Definition AsStructured (p : Part) : result Value :=
  match payload p with
  | Raw b => json_Unmarshal b
  | Structured v => Ok v
  end.

(** [Part.Get]: the payload as bytes (empty when it cannot be encoded). *)
Definition Get (p : Part) : bytes :=
  match AsBytes p with Ok b => b | Err _ => EmptyString end.
End Accessors.

(** Modelled from the spec: the mutators of a message.  [SetBytes] and
    [SetStructured] replace the content, [SetError] attaches the item
    error; each leaves the rest of the message as it is. *)
Definition SetBytes (p : Part) (b : bytes) : Part :=
  mkPart (Raw b) (metadata p) (perr p).

Definition SetStructured (p : Part) (v : Value) : Part :=
  mkPart (Structured v) (metadata p) (perr p).

Definition SetError (p : Part) (e : error) : Part :=
  mkPart (payload p) (metadata p) (Some e).

Definition GetError (p : Part) : option error := perr p.

(** Modelled from the spec: [Batch.Get(i)], declared with the batch type
    outside the two files: the part at index [i], an empty part out of
    range. *)
Definition BatchGet (m : Batch) (i : nat) : Part :=
  default (NewPart EmptyString) (m !! i).

(** Modelled from the spec: [Message.Copy], declared with the message type
    outside the two files: a new message with the same payload, metadata
    and item error. *)
Definition PartCopy (p : Part) : Part :=
  mkPart (payload p) (metadata p) (perr p).

(** Modelled from the spec: [MessageBatch.Copy]: a batch of the same
    length holding a copy of every message, in order; the copies are what a
    processor mutates. *)
Definition Copy (m : Batch) : Batch := map PartCopy m.

(** Modelled from the spec: [Batch.Iter(f)], declared with the batch type
    outside the two files: calls [f] on every index in batch order and stops
    at the first error, which it returns.  [St] is the state the callback
    closes over. *)
Fixpoint IterFrom {St : Type} (f : nat -> Part -> St -> option error * St)
    (i : nat) (parts : list Part) (s : St) : option error * St :=
  match parts with
  | [] => (None, s)
  | p :: rest =>
      match f i p s with
      | (Some e, s') => (Some e, s')
      | (None, s') => IterFrom f (S i) rest s'
      end
  end.

Definition Iter {St : Type} (m : Batch) (f : nat -> Part -> St -> option error * St)
    (s : St) : option error * St :=
  IterFrom f 0%nat m s.

End message.

(** ** Interpolated fields *)

Module field.
(** A compiled interpolation template: [Expression.String(index, batch)]
    reads the batch and resolves to a string. *)
Record Expression : Type := mkExpression {
  Resolve : nat -> message.Batch -> string
}.
End field.

(** ** The cache resource interface *)

Module cache.

Record TTLItem : Type := mkTTLItem {
  Value : bytes;
  TTL : option Duration
}.

(** [cache.V1], restricted to the two methods the output calls.  [C] is the
    state of the external store; each call returns its error and the store
    after the call. *)
Class V1 (C : Type) : Type := {
  V1_Set : C -> string -> bytes -> option Duration -> option error * C;
  V1_SetMulti : C -> gmap string TTLItem -> option error * C
}.

End cache.

(** ** The cache output *)

Module output_cache.
Import cache.

(** What an observer of the manager sees, in program order. *)
Inductive Event : Type :=
| EvNewField (template : string)
| EvProbeCache (name : string)
| EvAccessCache (name : string)
| EvParseDuration (s : string)
| EvSet (name key : string) (value : bytes) (ttl : option Duration)
| EvSetMulti (name : string) (items : gmap string TTLItem)
| EvDebugf (fmt : string) (arg : string)
| EvInfof (fmt : string) (arg : string).

(** [output.CacheConfig] *)
Record CacheConfig : Type := mkCacheConfig {
  Target : string;
  Key : string;
  TTL : string;
  MaxInFlight : Z
}.

(** [bundle.NewManagement], as far as the output uses it: the
    interpolation compiler of its Bloblang environment, the registry of
    named cache resources, and the trace of what was done through it. *)
Record NewManagement (C : Type) : Type := mkMgr {
  NewField : string -> result field.Expression;
  caches : gmap string C;
  trace : list Event
}.
Arguments mkMgr {C} _ _ _.
Arguments NewField {C} _ _.
Arguments caches {C} _.
Arguments trace {C} _.

(** [CacheWriter]; the manager and the logger it points to are the
    threaded state. *)
Record CacheWriter : Type := mkCacheWriter {
  conf : CacheConfig;
  key : field.Expression;
  ttl : field.Expression
}.

Section Writer.
Context `{GoStd} {C : Type} `{V1 C}.

Definition emit (mgr : NewManagement C) (evs : list Event) : NewManagement C :=
  mkMgr (NewField mgr) (caches mgr) (trace mgr ++ evs).

(** [mgr.BloblEnvironment().NewField(template)] *)
Definition compileField (mgr : NewManagement C) (template : string)
  : result field.Expression * NewManagement C :=
  (NewField mgr template, emit mgr [EvNewField template]).

(** Modelled from the spec: [mgr.ProbeCache(name)], the registry lookup
    [resolve(name) -> exists], declared with the manager outside the two
    files. *)
Definition ProbeCache (mgr : NewManagement C) (name : string)
  : bool * NewManagement C :=
  (bool_decide (is_Some (caches mgr !! name)), emit mgr [EvProbeCache name]).

(** Modelled from the spec: [mgr.AccessCache(ctx, name, fn)], declared with
    the manager outside the two files: resolves the resource by name at
    every dispatch and runs [fn] on the handle, which is scoped to this one
    call; an unknown name is an error and [fn] is not run.  [St] is the
    state of the variables [fn] closes over. *)
Definition AccessCache {St : Type} (mgr : NewManagement C) (name : string)
    (fn : C -> St -> list Event -> C * St * list Event) (s : St)
  : option error * St * NewManagement C :=
  let mgr := emit mgr [EvAccessCache name] in
  match caches mgr !! name with
  | None => (Some ("unable to locate resource: " +:+ name), s, mgr)
  | Some ac =>
      let '(ac', s', tr) := fn ac s (trace mgr) in
      (None, s', mkMgr (NewField mgr) (<[name := ac']> (caches mgr)) tr)
  end.

(** [NewCacheWriter(conf, mgr, log)] *)
Definition NewCacheWriter (conf : CacheConfig) (mgr : NewManagement C)
  : result CacheWriter * NewManagement C :=
  let '(key, mgr) := compileField mgr (Key conf) in
  match key with
  | Err err => (Err ("failed to parse key expression: " +:+ err), mgr)
  | Ok key =>
      let '(ttl, mgr) := compileField mgr (TTL conf) in
      match ttl with
      | Err err => (Err ("failed to parse ttl expression: " +:+ err), mgr)
      | Ok ttl =>
          let '(found, mgr) := ProbeCache mgr (Target conf) in
          if negb found
          then (Err ("cache resource '" +:+ Target conf +:+ "' was not found"), mgr)
          else (Ok (mkCacheWriter conf key ttl), mgr)
      end
  end.

(** [ConnectWithContext]: logs and does nothing else. *)
Definition ConnectWithContext (c : CacheWriter) (mgr : NewManagement C)
  : option error * NewManagement C :=
  (None, emit mgr [EvInfof "Writing message parts as items in cache: %v\n" (Target (conf c))]).

(** The callback [writeMulti] hands to [msg.Iter]; it closes over the
    [items] map and the logger. *)
Definition writeMulti_item (c : CacheWriter) (msg : message.Batch)
    (i : nat) (p : message.Part) (s : gmap string TTLItem * list Event)
  : option error * (gmap string TTLItem * list Event) :=
  let '(items, tr) := s in
  let ttls := field.Resolve (ttl c) i msg in
  let put (ttl : option Duration) (tr : list Event) :=
    (None, (<[field.Resolve (key c) i msg := mkTTLItem (message.Get p) ttl]> items, tr)) in
  if decide (ttls ≠ EmptyString) then
    let tr := tr ++ [EvParseDuration ttls] in
    match ParseDuration ttls with
    | Err terr =>
        (Some ("ttl field: " +:+ terr),
         (items, tr ++ [EvDebugf "Invalid duration string for TTL field: %v\n" terr]))
    | Ok t => put (Some t) tr
    end
  else put None tr.

(** [writeMulti(ctx, msg)].  The batch is passed by pointer, so the
    batch as the call leaves it is part of the result. *)
Definition writeMulti (c : CacheWriter) (msg : message.Batch) (mgr : NewManagement C)
  : option error * message.Batch * NewManagement C :=
  let name := Target (conf c) in
  let '(cerr, err, mgr) :=
    AccessCache mgr name (fun ac (err : option error) tr =>
      let '(ierr, (items, tr)) := message.Iter msg (writeMulti_item c msg) (∅, tr) in
      match ierr with
      | Some e => (ac, Some e, tr)
      | None =>
          let '(serr, ac) := V1_SetMulti ac items in
          (ac, serr, tr ++ [EvSetMulti name items])
      end) None in
  match cerr with
  | Some cerr => (Some cerr, msg, mgr)
  | None => (err, msg, mgr)
  end.

(** [WriteWithContext(ctx, msg)] *)
Definition WriteWithContext (c : CacheWriter) (msg : message.Batch) (mgr : NewManagement C)
  : option error * message.Batch * NewManagement C :=
  if decide (1 < message.Len msg)%nat then writeMulti c msg mgr
  else
    let name := Target (conf c) in
    let '(cerr, err, mgr) :=
      AccessCache mgr name (fun ca (err : option error) tr =>
        let ttls := field.Resolve (ttl c) 0%nat msg in
        let set (ttl : option Duration) (tr : list Event) :=
          let k := field.Resolve (key c) 0%nat msg in
          let v := message.Get (message.BatchGet msg 0%nat) in
          let '(serr, ca) := V1_Set ca k v ttl in
          (ca, serr, tr ++ [EvSet name k v ttl]) in
        if decide (ttls ≠ EmptyString) then
          let tr := tr ++ [EvParseDuration ttls] in
          match ParseDuration ttls with
          | Err terr =>
              (ca, Some ("ttl field: " +:+ terr),
               tr ++ [EvDebugf "Invalid duration string for TTL field: %v\n" terr])
          | Ok t => set (Some t) tr
          end
        else set None tr) None in
    match cerr with
    | Some cerr => (Some cerr, msg, mgr)
    | None => (err, msg, mgr)
    end.

End Writer.
End output_cache.

(** ** The redis processor *)

Module bloblang.
(** A compiled mapping: [batch.BloblangQuery(index, executor)] evaluates it
    against the message at [index] and yields a new message or an error. *)
Record Executor : Type := mkExecutor {
  Query : nat -> message.Batch -> result message.Part
}.
End bloblang.

Module redis.
Import message.

(** The commands sent to the store. *)
Inductive Cmd : Type :=
| CmdKeys (pattern : string)
| CmdSCard (key : string)
| CmdSAdd (key : string) (member : bytes)
| CmdIncrBy (key : string) (n : Z)
| CmdDo (args : list Value).

(** What an observer of the processor sees, in program order.  A call is
    recorded with the error it returned ([None] for success).
    [EvCancelled] is the environment cancelling the context; it can only
    surface while the processor is blocked in a delay. *)
Inductive Event : Type :=
| EvCall (c : Cmd) (outcome : option error)
| EvSleep (d : Duration)
| EvCancelled
| EvErrorf (fmt : string) (args : list string)
| EvDebugf (fmt : string) (args : list string).

(** [redis.UniversalClient], restricted to the calls the processor makes
    (each followed by [.Result()]).  [C] is the state of the connection and
    of the store behind it.  [DoContext] is told whether the context it
    receives is already done. *)
Class UniversalClient (C : Type) : Type := {
  Keys : C -> string -> result (list string) * C;
  SCard : C -> string -> result Z * C;
  SAdd : C -> string -> bytes -> result Z * C;
  IncrBy : C -> string -> Z -> result Z * C;
  DoContext : C -> bool -> list Value -> result Value * C
}.

(** The world the processor runs in: the client, the clock (nanoseconds),
    the instant at which the context of the current call is cancelled (if
    ever), and the trace. *)
Record World (C : Type) : Type := mkWorld {
  client : C;
  now : Z;
  cancel_at : option Z;
  trace : list Event
}.
Arguments mkWorld {C} _ _ _ _.
Arguments client {C} _.
Arguments now {C} _.
Arguments cancel_at {C} _.
Arguments trace {C} _.

(** The tagged variant of the closed set of operators. *)
Inductive redisOperator : Type :=
| opKeys
| opSCard
| opSAdd
| opIncrBy.

(** [redisProc].  [key] and [argsMapping] are the compiled fields of the
    mode the processor was built for; a [nil] operator selects the generic
    command mode. *)
Record redisProc : Type := mkRedisProc {
  key : field.Expression;
  operator : option redisOperator;
  command : field.Expression;
  argsMapping : bloblang.Executor;
  retries : Z;
  retryPeriod : Duration
}.

(** Computations over the world. *)
Definition M (C A : Type) : Type := World C -> A * World C.

#[global] Instance M_ret {C} : MRet (M C) := fun A a w => (a, w).
#[global] Instance M_bind {C} : MBind (M C) :=
  fun A B k m w => let '(a, w') := m w in k a w'.

Section Processor.
Context `{GoStd} {C : Type} `{UniversalClient C}.

Definition emit (evs : list Event) : M C unit :=
  fun w => (tt, mkWorld (client w) (now w) (cancel_at w) (trace w ++ evs)).

Definition Errorf (fmt : string) (args : list string) : M C unit :=
  emit [EvErrorf fmt args].

Definition Debugf (fmt : string) (args : list string) : M C unit :=
  emit [EvDebugf fmt args].

(** [ctx.Err() != nil] at the current instant. *)
Definition ctx_done (w : World C) : bool :=
  match cancel_at w with
  | Some t => bool_decide (t <= now w)
  | None => false
  end.

(** [<-time.After(d)]: blocks until the timer fires, which is after [d],
    or at once when [d] is zero or negative; nothing else is waited for.  A
    cancellation falling inside the delay is recorded when it happens. *)
Definition Sleep (d : Duration) : M C unit :=
  fun w =>
    let t := now w + Z.max 0 d in
    let cancelled :=
      match cancel_at w with
      | Some c => bool_decide (now w < c <= t)
      | None => false
      end in
    (tt, mkWorld (client w) t (cancel_at w)
           (trace w ++ EvSleep d :: (if cancelled then [EvCancelled] else []))).

(** One call on the client. *)
Definition call {A} (c : Cmd) (f : C -> result A * C) : M C (result A) :=
  fun w =>
    let '(res, cl) := f (client w) in
    (res, mkWorld cl (now w) (cancel_at w) (trace w ++ [EvCall c (err_of res)])).

Definition doKeys (key : string) : M C (result (list string)) :=
  call (CmdKeys key) (fun cl => Keys cl key).
Definition doSCard (key : string) : M C (result Z) :=
  call (CmdSCard key) (fun cl => SCard cl key).
Definition doSAdd (key : string) (m : bytes) : M C (result Z) :=
  call (CmdSAdd key m) (fun cl => SAdd cl key m).
Definition doIncrBy (key : string) (n : Z) : M C (result Z) :=
  call (CmdIncrBy key n) (fun cl => IncrBy cl key n).
Definition doDoContext (args : list Value) : M C (result Value) :=
  fun w => call (CmdDo args) (fun cl => DoContext cl (ctx_done w) args) w.

(** The loop
<<
  for i := 0; i <= r.retries && err != nil; i++ {
      r.log.Errorf(fmt, ..., err)
      <-time.After(r.retryPeriod)
      res, err = again()
  }
>>
    that follows the first attempt in all four operators and in
    [execRaw].  [iters] holds the values of [i] for which [i <= r.retries]
    is still to be tested true, in order; [res] is the current
    [(res, err)]. *)
Fixpoint retry_loop {A} (iters : list Z) (period : Duration)
    (fmt : string) (args : list string)
    (again : M C (result A)) (res : result A) : M C (result A) :=
  match iters with
  | [] => mret res
  | _ :: iters' =>
      match res with
      | Ok _ => mret res
      | Err err =>
          _ ← Errorf fmt (args ++ [err]);
          _ ← Sleep period;
          res' ← again;
          retry_loop iters' period fmt args again res'
      end
  end.

Definition retry {A} (r : redisProc) (fmt : string) (args : list string)
    (again : M C (result A)) (res : result A) : M C (result A) :=
  retry_loop (seqZ 0 (retries r + 1)) (retryPeriod r) fmt args again res.

(** The operators.  Each returns its error and the message as it leaves
    it. *)
Definition newRedisKeysOperator (r : redisProc) (key : string) (part : Part)
  : M C (option error * Part) :=
  res ← doKeys key;
  res ← retry r "Keys command failed: %v\n" [] (doKeys key) res;
  match res with
  | Err err => mret (Some err, part)
  | Ok res => mret (None, SetStructured part (VArray (map VString res)))
  end.

Definition newRedisSCardOperator (r : redisProc) (key : string) (part : Part)
  : M C (option error * Part) :=
  res ← doSCard key;
  res ← retry r "SCard command failed: %v\n" [] (doSCard key) res;
  match res with
  | Err err => mret (Some err, part)
  | Ok res => mret (None, SetBytes part (AppendInt res))
  end.

Definition newRedisSAddOperator (r : redisProc) (key : string) (part : Part)
  : M C (option error * Part) :=
  match AsBytes part with
  | Err err => mret (Some err, part)
  | Ok mBytes =>
      res ← doSAdd key mBytes;
      res ← retry r "SAdd command failed: %v\n" [] (doSAdd key mBytes) res;
      match res with
      | Err err => mret (Some err, part)
      | Ok res => mret (None, SetBytes part (AppendInt res))
      end
  end.

Definition newRedisIncrByOperator (r : redisProc) (key : string) (part : Part)
  : M C (option error * Part) :=
  match AsBytes part with
  | Err err => mret (Some err, part)
  | Ok mBytes =>
      match Atoi mBytes with
      | Err err => mret (Some err, part)
      | Ok valueInt =>
          res ← doIncrBy key valueInt;
          res ← retry r "incrby command failed: %v\n" [] (doIncrBy key valueInt) res;
          match res with
          | Err err => mret (Some err, part)
          | Ok res => mret (None, SetBytes part (AppendInt res))
          end
      end
  end.

Definition getRedisOperator (opStr : string) : result redisOperator :=
  if decide (opStr = "keys") then Ok opKeys
  else if decide (opStr = "sadd") then Ok opSAdd
  else if decide (opStr = "scard") then Ok opSCard
  else if decide (opStr = "incrby") then Ok opIncrBy
  else Err ("operator not recognised: " +:+ opStr).

(** Calling the closure an operator tag stands for. *)
Definition run_operator (op : redisOperator)
  : redisProc -> string -> Part -> M C (option error * Part) :=
  match op with
  | opKeys => newRedisKeysOperator
  | opSCard => newRedisSCardOperator
  | opSAdd => newRedisSAddOperator
  | opIncrBy => newRedisIncrByOperator
  end.

(** [%T] of a value. *)
Definition type_name (v : Value) : string :=
  match v with
  | VNil => "<nil>"
  | VBool _ => "bool"
  | VNumber _ => "json.Number"
  | VInt64 _ => "int64"
  | VFloat64 _ => "float64"
  | VString _ => "string"
  | VBytes _ => "[]uint8"
  | VArray _ => "[]interface {}"
  | VObject _ => "map[string]interface {}"
  end.

(** The body of the loop over [args] in [execRaw]: a [json.Number]
    becomes an int64, else a float64, else its text. *)
Definition normalise (v : Value) : Value :=
  match v with
  | VNumber n =>
      match Number_Int64 n with
      | Ok i => VInt64 i
      | Err _ =>
          match Number_Float64 n with
          | Ok f => VFloat64 f
          | Err _ => VString n
          end
      end
  | _ => v
  end.

(** [execRaw(ctx, index, inBatch, msg)] *)
Definition execRaw (r : redisProc) (index : nat) (inBatch : Batch) (msg : Part)
  : M C (option error * Part) :=
  match bloblang.Query (argsMapping r) index inBatch with
  | Err err => mret (Some ("args mapping failed: " +:+ err), msg)
  | Ok resMsg =>
      match AsStructured resMsg with
      | Err err => mret (Some err, msg)
      | Ok iargs =>
          match iargs with
          | VArray args =>
              let args := map normalise args in
              let command := field.Resolve (command r) index inBatch in
              let args := VString command :: args in
              res ← doDoContext args;
              res ← retry r "%v command failed: %v" [command] (doDoContext args) res;
              match res with
              | Err err => mret (Some err, msg)
              | Ok res => mret (None, SetStructured msg res)
              end
          | _ =>
              mret (Some ("mapping returned non-array result: " +:+ type_name iargs), msg)
          end
      end
  end.

(** The body of the loop of [ProcessBatch]. *)
Definition process_part (r : redisProc) (inBatch : Batch) (index : nat) (part : Part)
  : M C Part :=
  match operator r with
  | Some op =>
      let key := field.Resolve (key r) index inBatch in
      '(err, part) ← run_operator op r key part;
      match err with
      | Some err =>
          _ ← Debugf "Operator failed for key '%s': %v" [key; err];
          mret (SetError part ("redis operator failed: " +:+ err))
      | None => mret part
      end
  | None =>
      '(err, part) ← execRaw r index inBatch part;
      match err with
      | Some err =>
          _ ← Debugf "Args mapping failed: %v" [err];
          mret (SetError part err)
      | None => mret part
      end
  end.

(** [for index, part := range newMsg { ... }], from [index] on. *)
Fixpoint process_parts (r : redisProc) (inBatch : Batch) (index : nat)
    (parts : list Part) : M C (list Part) :=
  match parts with
  | [] => mret []
  | part :: rest =>
      part' ← process_part r inBatch index part;
      rest' ← process_parts r inBatch (S index) rest;
      mret (part' :: rest')
  end.

(** [ProcessBatch(ctx, inBatch)]; the context is in the world. *)
Definition ProcessBatch (r : redisProc) (inBatch : Batch)
  : M C (list Batch * option error) :=
  let newMsg := Copy inBatch in
  newMsg ← process_parts r inBatch 0%nat newMsg;
  mret ([newMsg], None).

End Processor.
End redis.

(** ** Observations on the cache output *)

Module cache_obs.
Import cache output_cache.

(** A call that writes to the external store. *)
Definition is_write (e : Event) : bool :=
  match e with
  | EvSet _ _ _ _ | EvSetMulti _ _ => true
  | _ => false
  end.

(** A template compilation. *)
Definition is_compile (e : Event) : bool :=
  match e with
  | EvNewField _ => true
  | _ => false
  end.

(** An action that stays inside the process: a duration parse or a log line. *)
Definition is_local (e : Event) : bool :=
  match e with
  | EvParseDuration _ | EvDebugf _ _ => true
  | _ => false
  end.

Definition writes (tr : list Event) : list Event := List.filter is_write tr.
Definition compiles (tr : list Event) : list Event := List.filter is_compile tr.

(** The events a call added to the trace of the manager. *)
Definition new_events {C} (before after : NewManagement C) : list Event :=
  drop (length (trace before)) (trace after).

Section Resolved.
Context `{GoStd}.

(** The resolved TTL of index [i] is empty or parses. *)
Definition ttl_ok (c : CacheWriter) (msg : message.Batch) (i : nat) : bool :=
  let ttls := field.Resolve (ttl c) i msg in
  if decide (ttls ≠ EmptyString) then negb (is_err (ParseDuration ttls)) else true.

Definition all_ttls_ok (c : CacheWriter) (msg : message.Batch) : bool :=
  forallb (ttl_ok c msg) (seq 0 (length msg)).

(** The optional TTL of index [i]: absent when the resolved string is
    empty. *)
Definition ttl_of (c : CacheWriter) (msg : message.Batch) (i : nat) : option Duration :=
  let ttls := field.Resolve (ttl c) i msg in
  if decide (ttls ≠ EmptyString) then
    match ParseDuration ttls with Ok t => Some t | Err _ => None end
  else None.

(** The entry of index [i]: resolved key, and (value, optional ttl). *)
Definition entry (c : CacheWriter) (msg : message.Batch) (i : nat) (p : message.Part)
  : string * TTLItem :=
  (field.Resolve (key c) i msg, mkTTLItem (message.Get p) (ttl_of c msg i)).

Definition entries (c : CacheWriter) (msg : message.Batch) : list (string * TTLItem) :=
  imap (entry c msg) msg.

Definition put (items : gmap string TTLItem) (e : string * TTLItem) : gmap string TTLItem :=
  <[e.1 := e.2]> items.

(** The mapping from resolved key to (value, optional ttl), entries
    taken in batch order. *)
Definition mapping (c : CacheWriter) (msg : message.Batch) : gmap string TTLItem :=
  foldl put ∅ (entries c msg).

(** The dispatch shape by batch size, as a property of one dispatch:
    size 1 performs exactly one [Set] of the entry of index 0, size
    greater than 1 exactly one [SetMulti] of the mapping. *)
Definition dispatch_shape {C} `{V1 C} (c : CacheWriter) (msg : message.Batch)
    (mgr : NewManagement C) : Prop :=
  let '(_, _, mgr') := WriteWithContext c msg mgr in
  let name := Target (conf c) in
  (length msg = 1%nat ->
     writes (new_events mgr mgr') =
       [EvSet name (field.Resolve (key c) 0%nat msg)
              (message.Get (message.BatchGet msg 0%nat)) (ttl_of c msg 0%nat)]) /\
  ((1 < length msg)%nat ->
     writes (new_events mgr mgr') = [EvSetMulti name (mapping c msg)]).
End Resolved.
End cache_obs.

(** ** Observations on the redis processor *)

Module redis_obs.
Import message redis.

Definition is_call (e : Event) : bool :=
  match e with EvCall _ _ => true | _ => false end.

Definition is_sleep (e : Event) : bool :=
  match e with EvSleep _ => true | _ => false end.

(** The invocations of the store, and the delays, of a trace. *)
Definition calls (tr : list Event) : list Event := List.filter is_call tr.
Definition sleeps (tr : list Event) : list Event := List.filter is_sleep tr.

(** The events a computation added to the trace. *)
Definition new_events {C} (before after : World C) : list Event :=
  drop (length (trace before)) (trace after).

(** What follows the cancellation of the context in a trace (nothing when
    it is never cancelled). *)
Fixpoint after_cancel (tr : list Event) : list Event :=
  match tr with
  | [] => []
  | EvCancelled :: rest => rest
  | _ :: rest => after_cancel rest
  end.

(** The outcome of the last invocation in a trace. *)
Definition last_outcome (tr : list Event) : option (option error) :=
  match last (calls tr) with
  | Some (EvCall _ e) => Some e
  | _ => None
  end.

(** [context.Canceled] *)
Definition Canceled : error := "context canceled".

(** The shape of what the retry loop adds to the trace: starting from an
    attempt that ended with [e0], every round logs the error, sleeps
    (during which the context may get cancelled) and invokes the same
    command again; the loop leaves with the outcome of the last
    invocation. *)
Inductive rounds (cmd : Cmd) : option error -> list Event -> option error -> Prop :=
| rounds_stop (e : option error) : rounds cmd e [] e
| rounds_retry (err : error) fmt args d (cxl : list Event) (e1 : option error) evs
    (e2 : option error) :
    cxl = [] \/ cxl = [EvCancelled] ->
    rounds cmd e1 evs e2 ->
    rounds cmd (Some err)
      (EvErrorf fmt args :: EvSleep d :: cxl ++ EvCall cmd e1 :: evs) e2.

Section Handling.
Context `{GoStd} {C : Type} `{UniversalClient C}.

(** [again] is one invocation of [cmd]: it touches the client, records
    the call with its outcome, and leaves clock and context alone. *)
Definition invokes {A} (cmd : Cmd) (again : M C (result A)) : Prop :=
  forall w, exists res cl,
    again w = (res, mkWorld cl (now w) (cancel_at w) (trace w ++ [EvCall cmd (err_of res)])).

(** What [ProcessBatch] attempts on the message at [index]: the
    operator on the resolved key, or [execRaw]. *)
Definition attempt (r : redisProc) (inBatch : Batch) (index : nat) (part : Part)
  : M C (option error * Part) :=
  match operator r with
  | Some op => run_operator op r (field.Resolve (key r) index inBatch) part
  | None => execRaw r index inBatch part
  end.

(** The item error [ProcessBatch] attaches for a failure [err]. *)
Definition item_error (r : redisProc) (err : error) : error :=
  match operator r with
  | Some _ => "redis operator failed: " +:+ err
  | None => err
  end.

(** The world in which the message at index [i] is handled: the one
    left by the handling of the messages before it. *)
Definition world_before (r : redisProc) (inBatch : Batch) (i : nat) (w : World C)
  : World C :=
  (process_parts r inBatch 0%nat (take i (Copy inBatch)) w).2.

(** The handling of the message at index [i] of [inBatch] fails. *)
Definition fails_at (r : redisProc) (inBatch : Batch) (w : World C) (i : nat) : Prop :=
  exists part, inBatch !! i = Some part
    /\ is_Some (attempt r inBatch i part (world_before r inBatch i w)).1.1.

(** Cancellation aborts the retries of [execRaw]: once the context is
    cancelled during a delay the command is not invoked again and the
    cancellation error is returned. *)
Definition cancel_aborts (r : redisProc) (index : nat) (inBatch : Batch) (msg : Part)
    (w : World C) : Prop :=
  let '((err, _), w') := execRaw r index inBatch msg w in
  let evs := new_events w w' in
  In EvCancelled evs ->
  calls (after_cancel evs) = [] /\ err = Some Canceled.

(** The retry budget of [execRaw]: at most [retries + 1] invocations
    and at most [retries] delays. *)
Definition within_budget (r : redisProc) (index : nat) (inBatch : Batch) (msg : Part)
    (w : World C) : Prop :=
  let '(_, w') := execRaw r index inBatch msg w in
  let evs := new_events w w' in
  Z.of_nat (length (calls evs)) <= retries r + 1
  /\ Z.of_nat (length (sleeps evs)) <= retries r.
End Handling.
End redis_obs.

(** ** Concrete instances

    A small standard library, an in-memory cache and an in-memory redis
    client on which the definitions can be run. *)

Module demo.

Definition parse_int (s : string) : result Z :=
  match NilZero.int_of_string s with
  | Some d => Ok (Z.of_int d)
  | None => Err ("strconv.Atoi: parsing " +:+ s +:+ ": invalid syntax")
  end.

Definition format_int (n : Z) : string := NilZero.string_of_int (Z.to_int n).

(** Durations written as a decimal count followed by [s], as in [60s]. *)
Definition parse_duration (s : string) : result Duration :=
  let n := String.length s in
  if decide (String.substring (n - 1) 1 s = "s") then
    match NilZero.uint_of_string (String.substring 0 (n - 1) s) with
    | Some d => Ok (Z.of_uint d * 1000000000)
    | None => Err ("time: invalid duration " +:+ s)
    end
  else Err ("time: invalid duration " +:+ s).

#[global] Instance std : GoStd := {|
  ParseDuration := parse_duration;
  Atoi := parse_int;
  AppendInt := format_int;
  Number_Int64 := parse_int;
  Number_Float64 := fun s => Err ("strconv.ParseFloat: parsing " +:+ s +:+ ": invalid syntax");
  json_Marshal := fun v =>
    match v with
    | VInt64 i => Ok (format_int i)
    | VNumber n => Ok n
    | _ => Err "json: unsupported value"
    end;
  json_Unmarshal := fun b =>
    match parse_int b with
    | Ok _ => Ok (VNumber b)
    | Err e => Err "invalid character looking for beginning of value"
    end
|}.

(** An in-memory cache: the stored items. *)
#[global] Instance mem_cache : cache.V1 (gmap string cache.TTLItem) := {|
  cache.V1_Set := fun st k v ttl => (None, <[k := cache.mkTTLItem v ttl]> st);
  cache.V1_SetMulti := fun st items => (None, items ∪ st)
|}.

(** An in-memory redis holding integer counters behind a connection that
    drops the next [failing] calls. *)
Record conn : Type := mkConn {
  failing : nat;
  counters : gmap string Z
}.

Definition attempt {A} (cl : conn) (f : gmap string Z -> result A * gmap string Z)
  : result A * conn :=
  match failing cl with
  | S n => (Err "connection refused", mkConn n (counters cl))
  | O => let '(res, cs) := f (counters cl) in (res, mkConn O cs)
  end.

Definition incrby (k : string) (n : Z) (cs : gmap string Z) : result Z * gmap string Z :=
  let v := default 0 (cs !! k) + n in (Ok v, <[k := v]> cs).

#[global] Instance mem_redis : redis.UniversalClient conn := {|
  redis.Keys := fun cl pat =>
    attempt cl (fun cs => (Ok (filter (fun k => k = pat) (elements (dom cs))), cs));
  redis.SCard := fun cl k => attempt cl (fun cs => (Ok 0, cs));
  redis.SAdd := fun cl k m => attempt cl (fun cs => (Ok 1, cs));
  redis.IncrBy := fun cl k n => attempt cl (incrby k n);
  redis.DoContext := fun cl done args =>
    if done then (Err "context canceled", cl)
    else attempt cl (fun cs =>
      match args with
      | [VString "incrby"; VString k; VInt64 n] =>
          let '(res, cs) := incrby k n cs in
          (match res with Ok v => Ok (VInt64 v) | Err e => Err e end, cs)
      | _ => (Err "ERR unknown command", cs)
      end)
|}.

(** A template that resolves to the same text at every index. *)
Definition const_field (s : string) : field.Expression :=
  field.mkExpression (fun _ _ => s).

(** A template that resolves to the raw payload of the message at the
    index. *)
Definition payload_field : field.Expression :=
  field.mkExpression (fun i msg =>
    match message.payload (message.BatchGet msg i) with
    | message.Raw b => b
    | message.Structured _ => EmptyString
    end).

(** A template that resolves to the metadata value [name] of the message
    at the index (empty when absent). *)
Definition meta_field (name : string) : field.Expression :=
  field.mkExpression (fun i msg =>
    default EmptyString (message.metadata (message.BatchGet msg i) !! name)).

(** A compiler that accepts [${!content()}], [${!meta(ttl)}] and plain
    text without interpolation markers. *)
Definition new_field (template : string) : result field.Expression :=
  if decide (template = "${!content()}") then Ok payload_field
  else if decide (template = "${!meta(ttl)}") then Ok (meta_field "ttl")
  else if decide (String.index 0 "${" template = None) then Ok (const_field template)
  else Err ("unrecognised interpolation in " +:+ template).

(** A cache output writing to the resource [foo], keyed by the message
    content, with the TTL taken from the metadata. *)
Definition cfg : output_cache.CacheConfig :=
  output_cache.mkCacheConfig "foo" "${!content()}" "${!meta(ttl)}" 1.

Definition writer : output_cache.CacheWriter :=
  output_cache.mkCacheWriter cfg payload_field (meta_field "ttl").

(** A manager with the single, empty cache resource [foo]. *)
Definition mgr : output_cache.NewManagement (gmap string cache.TTLItem) :=
  output_cache.mkMgr new_field {[ "foo" := ∅ ]} [].

(** A message with raw content [b] and no metadata. *)
Definition part (b : bytes) : message.Part := message.NewPart b.

(** A message with raw content [b] and the metadata value [ttl]. *)
Definition part_ttl (b : bytes) (ttl : string) : message.Part :=
  message.mkPart (message.Raw b) {[ "ttl" := ttl ]} None.

(** The mapping [root = [ "ash", content() ]]: it fails on an empty
    message and yields a non-array on a structured one. *)
Definition args_mapping : bloblang.Executor :=
  bloblang.mkExecutor (fun i batch =>
    match message.payload (message.BatchGet batch i) with
    | message.Raw b =>
        if decide (b = EmptyString) then Err "failed to execute mapping: value is null"
        else Ok (message.mkPart (message.Structured (VArray [VString "ash"; VNumber b])) ∅ None)
    | message.Structured _ => Ok (message.mkPart (message.Structured VNil) ∅ None)
    end).

(** A processor in generic command mode: [incrby] with the mapping above,
    the given retry count and a delay of 500ms. *)
Definition proc_cmd (retries : Z) : redis.redisProc :=
  redis.mkRedisProc (const_field EmptyString) None (const_field "incrby") args_mapping
    retries 500000000.

(** A processor in fixed-operator mode. *)
Definition proc_op (op : redis.redisOperator) (retries : Z) : redis.redisProc :=
  redis.mkRedisProc (const_field "ash") (Some op) (const_field EmptyString) args_mapping
    retries 500000000.

(** A world at instant 0 whose connection drops the next [failing] calls
    and whose context is cancelled at [cancel_at]. *)
Definition world (failing : nat) (cancel_at : option Z) : redis.World conn :=
  redis.mkWorld (mkConn failing ∅) 0 cancel_at [].

End demo.

(** ** Further observations on the cache output *)

Module cache_trace.
Import cache output_cache cache_obs.

(** The duration parse a dispatch makes for the TTL of index [i]: none when
the resolved string is empty. *)
Definition ttl_parse (c : CacheWriter) (msg : message.Batch) (i : nat) : list Event :=
  let ttls := field.Resolve (ttl c) i msg in
  if decide (ttls ≠ EmptyString) then [EvParseDuration ttls] else [].

(** The duration parses for the indices [i, i + n), in order. *)
Definition ttl_parses (c : CacheWriter) (msg : message.Batch) (i n : nat) : list Event :=
  flat_map (ttl_parse c msg) (seq i n).

(** The resolved keys of a batch, in batch order. *)
Definition resolved_keys (c : CacheWriter) (msg : message.Batch) : list string :=
  imap (fun i _ => field.Resolve (key c) i msg) msg.

Section FirstBad.
Context `{GoStd}.

(** [l] is the first index whose resolved TTL is non-empty and does not
parse. *)
Definition first_bad_ttl (c : CacheWriter) (msg : message.Batch) (l : nat) : Prop :=
  (l < length msg)%nat
  /\ ttl_ok c msg l = false
  /\ forall l', (l' < l)%nat -> ttl_ok c msg l' = true.

End FirstBad.
End cache_trace.

(** ** Further observations on the redis processor *)

Module redis_cost.
Import message redis redis_obs.

Definition is_errorf (e : Event) : bool :=
  match e with EvErrorf _ _ => true | _ => false end.

(** The error lines of a trace. *)
Definition errorfs (tr : list Event) : list Event := List.filter is_errorf tr.

(** The outcomes of the invocations of a trace, in order. *)
Definition outcomes (tr : list Event) : list (option error) :=
  flat_map (fun e => match e with EvCall _ o => [o] | _ => [] end) tr.

(** The commands invoked in a trace, in order. *)
Definition commands (tr : list Event) : list Cmd :=
  flat_map (fun e => match e with EvCall c _ => [c] | _ => [] end) tr.

(** A trace without the marks of the context being cancelled. *)
Definition uncancelled (tr : list Event) : list Event :=
  List.filter (fun e => match e with EvCancelled => false | _ => true end) tr.

(** The number of times the body of the retry loop can run: the number of
values of [i] with [0 <= i <= r.retries]. *)
Definition max_rounds (r : redisProc) : nat := Z.to_nat (retries r + 1).

(** The value is a [json.Number]. *)
Definition is_number (v : Value) : bool :=
  match v with VNumber _ => true | _ => false end.

(** The names [getRedisOperator] knows. *)
Definition operator_names : list string := ["keys"; "sadd"; "scard"; "incrby"].

Section Cost.
Context {C : Type}.

(** Going from [w] to [w'] appended events with at most [ncalls]
invocations and [nsleeps] delays, each delay of length [period] and
announced by one error line, and left the context as it was. *)
Definition within (ncalls nsleeps : nat) (period : Duration) (w w' : World C) : Prop :=
  cancel_at w' = cancel_at w
  /\ exists evs,
       trace w' = trace w ++ evs
       /\ (length (calls evs) <= ncalls)%nat
       /\ (length (sleeps evs) <= nsleeps)%nat
       /\ length (errorfs evs) = length (sleeps evs)
       /\ now w' = now w + Z.of_nat (length (sleeps evs)) * period.

(** The same world with another fate for the context. *)
Definition with_cancel (c : option Z) (w : World C) : World C :=
  mkWorld (client w) (now w) c (trace w).

(** Two worlds that differ at most in the context and its marks in the
trace. *)
Definition same_but_context (w1 w2 : World C) : Prop :=
  client w1 = client w2
  /\ now w1 = now w2
  /\ uncancelled (trace w1) = uncancelled (trace w2).

(** What a first invocation of [cmd] followed by the retry loop leaves
behind, as a property of the result [out] of an operator or of [execRaw]
started in [w] on [part]. *)
Definition retried (r : redisProc) (cmd : Cmd) (part : Part) (w : World C)
    (out : option error * Part * World C) : Prop :=
  let '((err, part'), w') := out in
  cancel_at w' = cancel_at w
  /\ (is_Some err -> part' = part)
  /\ exists e0 evs,
       trace w' = trace w ++ EvCall cmd e0 :: evs
       /\ rounds cmd e0 evs err
       /\ (length (calls evs) <= max_rounds r)%nat
       /\ (is_Some err -> length (calls evs) = max_rounds r)
       /\ now w' = now w + Z.of_nat (length (sleeps evs)) * Z.max 0 (retryPeriod r).

End Cost.

Section Sending.
Context `{GoStd} {C : Type} `{UniversalClient C}.

(** Every message of the returned batch carries an item error exactly when
its handling failed. *)
Definition exactly_failing (r : redisProc) (inBatch : Batch) (w : World C) : Prop :=
  let '((out, _), _) := ProcessBatch r inBatch w in
  exists newMsg, out = [newMsg]
    /\ length newMsg = length inBatch
    /\ forall i m, newMsg !! i = Some m ->
         (is_Some (GetError m) <-> fails_at r inBatch w i).

(** The command the message at [index] stands for, resolved against the
batch as it arrived; none when the content or the arguments cannot be
used. *)
Definition command_of (r : redisProc) (inBatch : Batch) (index : nat) (part : Part)
  : option Cmd :=
  let key := field.Resolve (key r) index inBatch in
  match operator r with
  | Some opKeys => Some (CmdKeys key)
  | Some opSCard => Some (CmdSCard key)
  | Some opSAdd =>
      match AsBytes part with
      | Ok mBytes => Some (CmdSAdd key mBytes)
      | Err _ => None
      end
  | Some opIncrBy =>
      match AsBytes part with
      | Ok mBytes =>
          match Atoi mBytes with
          | Ok valueInt => Some (CmdIncrBy key valueInt)
          | Err _ => None
          end
      | Err _ => None
      end
  | None =>
      match bloblang.Query (argsMapping r) index inBatch with
      | Ok resMsg =>
          match AsStructured resMsg with
          | Ok (VArray args) =>
              Some (CmdDo (VString (field.Resolve (command r) index inBatch)
                             :: map normalise args))
          | _ => None
          end
      | Err _ => None
      end
  end.

(** The commands of the messages [parts], which sit at [index] and after,
each repeated as often as [counts] says, in batch order; a message that
stands for no command contributes nothing. *)
Fixpoint sent (r : redisProc) (inBatch : Batch) (index : nat) (parts : list Part)
    (counts : list nat) : list Cmd :=
  match parts, counts with
  | part :: parts', k :: counts' =>
      match command_of r inBatch index part with
      | Some cmd => replicate k cmd
      | None => []
      end ++ sent r inBatch (S index) parts' counts'
  | _, _ => []
  end.

(** [again] is one invocation of [cmd] through [f], which is told whether
the context is done. *)
Definition asks {A} (cmd : Cmd) (f : bool -> C -> result A * C) (again : M C (result A))
  : Prop :=
  forall w, exists done, again w = call cmd (f done) w.

End Sending.
End redis_cost.

(** * Properties of the cache output *)

Module CacheSink.
Import cache output_cache cache_obs.

Lemma writes_app (tr1 tr2 : list Event) : writes (tr1 ++ tr2) = writes tr1 ++ writes tr2.
Proof. apply List.filter_app. Qed.

Lemma compiles_app (tr1 tr2 : list Event) :
  compiles (tr1 ++ tr2) = compiles tr1 ++ compiles tr2.
Proof. apply List.filter_app. Qed.

Lemma local_app (tr1 tr2 : list Event) :
  forallb is_local tr1 = true -> forallb is_local tr2 = true ->
  forallb is_local (tr1 ++ tr2) = true.
Proof. intros H1 H2. rewrite forallb_app, H1, H2. reflexivity. Qed.

Lemma writes_local (evs : list Event) : forallb is_local evs = true -> writes evs = [].
Proof.
  induction evs as [|e evs IH]; simpl; [reflexivity|].
  intros [He Hevs]%andb_prop. rewrite (IH Hevs).
  destruct e; simpl in *; congruence.
Qed.

Lemma compiles_local (evs : list Event) : forallb is_local evs = true -> compiles evs = [].
Proof.
  induction evs as [|e evs IH]; simpl; [reflexivity|].
  intros [He Hevs]%andb_prop. rewrite (IH Hevs).
  destruct e; simpl in *; congruence.
Qed.

Lemma cache_new_events_app {C} (mgr mgr' : NewManagement C) (evs : list Event) :
  trace mgr' = trace mgr ++ evs -> new_events mgr mgr' = evs.
Proof. intros E. unfold new_events. rewrite E. apply drop_app_length. Qed.

(** *** Maps built by successive insertion *)

Lemma foldl_put_snoc (m : gmap string TTLItem) es e :
  foldl put m (es ++ [e]) = put (foldl put m es) e.
Proof. by rewrite foldl_app. Qed.

(** The entry found under a key is the one of its last occurrence. *)
Lemma foldl_put_lookup_last (es : list (string * TTLItem)) (m : gmap string TTLItem) l k it :
  es !! l = Some (k, it) ->
  (forall l' e, (l < l')%nat -> es !! l' = Some e -> e.1 ≠ k) ->
  foldl put m es !! k = Some it.
Proof.
  revert l. induction es as [|e es IH] using rev_ind; intros l Hl Hlast.
  - discriminate.
  - rewrite foldl_put_snoc. unfold put at 1.
    destruct (decide (l = length es)) as [->|Hne].
    + rewrite list_lookup_middle in Hl by reflexivity. injection Hl as ->. simpl.
      apply lookup_insert_eq.
    + assert (l < length es)%nat as Hlt.
      { apply lookup_lt_Some in Hl. rewrite length_app in Hl. simpl in Hl. lia. }
      rewrite lookup_app_l in Hl by exact Hlt.
      rewrite lookup_insert_ne.
      * apply (IH l Hl). intros l' e' Hl' He'. apply (Hlast l' e' Hl').
        rewrite lookup_app_l; [exact He' | by eapply lookup_lt_Some].
      * apply (Hlast (length es) e Hlt). by rewrite list_lookup_middle.
Qed.

(** Every entry of the map comes from the last occurrence of its key. *)
Lemma foldl_put_lookup_origin (es : list (string * TTLItem)) k it :
  foldl put ∅ es !! k = Some it ->
  exists l, es !! l = Some (k, it)
    /\ forall l' e, (l < l')%nat -> es !! l' = Some e -> e.1 ≠ k.
Proof.
  induction es as [|e es IH] using rev_ind; intros Hk.
  - simpl in Hk. by rewrite lookup_empty in Hk.
  - rewrite foldl_put_snoc in Hk. unfold put at 1 in Hk.
    destruct (decide (e.1 = k)) as [<-|Hne].
    + rewrite lookup_insert_eq in Hk. injection Hk as <-.
      exists (length es). split.
      * rewrite list_lookup_middle by reflexivity. by destruct e.
      * intros l' e' Hl' He'. apply lookup_lt_Some in He'.
        rewrite length_app in He'. simpl in He'. lia.
    + rewrite lookup_insert_ne in Hk by exact Hne.
      destruct (IH Hk) as (l & Hl & Hlast).
      assert (l < length es)%nat as Hlt by by eapply lookup_lt_Some.
      exists l. split; [by rewrite lookup_app_l|].
      intros l' e' Hl' He'.
      destruct (decide (l' < length es)%nat) as [Hin|Hout].
      * rewrite lookup_app_l in He' by exact Hin. by apply (Hlast l' e').
      * assert (l' = length es) as ->.
        { apply lookup_lt_Some in He'. rewrite length_app in He'. simpl in He'. lia. }
        rewrite list_lookup_middle in He' by reflexivity. by injection He' as <-.
Qed.

Lemma foldl_put_dom (es : list (string * TTLItem)) (m : gmap string TTLItem) :
  dom (foldl put m es) = dom m ∪ list_to_set es.*1.
Proof.
  revert m. induction es as [|e es IH]; intros m.
  - cbn [foldl fmap list_fmap]. rewrite list_to_set_nil. by rewrite (right_id_L ∅ (∪)).
  - cbn [foldl]. rewrite IH. unfold put. rewrite dom_insert_L, fmap_cons, list_to_set_cons.
    rewrite (comm_L (∪) {[e.1]} (dom m)). by rewrite (assoc_L (∪)).
Qed.

Lemma size_list_to_set_le (ks : list string) :
  (size (list_to_set ks : gset string) <= length ks)%nat.
Proof.
  induction ks as [|x ks IH].
  - rewrite list_to_set_nil, size_empty. reflexivity.
  - rewrite list_to_set_cons, size_union_alt, size_singleton. cbn [length].
    assert (size (list_to_set ks ∖ {[x]} : gset string) <= size (list_to_set ks : gset string))%nat.
    { apply subseteq_size. set_solver. }
    lia.
Qed.

(** A key list with a repeated key yields strictly fewer keys than
    positions. *)
Lemma size_list_to_set_dup (ks : list string) : forall i j k,
  (i < j)%nat -> ks !! i = Some k -> ks !! j = Some k ->
  (size (list_to_set ks : gset string) < length ks)%nat.
Proof.
  induction ks as [|x ks IH]; intros i j k Hij Hi Hj; [discriminate|].
  destruct j as [|j]; [lia|]. simpl in Hj.
  destruct i as [|i]; simpl in Hi.
  - injection Hi as ->.
    assert (k ∈ ks) as Hin by (apply list_elem_of_lookup; eauto).
    rewrite list_to_set_cons. cbn [length].
    replace ({[k]} ∪ list_to_set ks : gset string) with (list_to_set ks : gset string)
      by set_solver.
    pose proof (size_list_to_set_le ks). lia.
  - rewrite list_to_set_cons, size_union_alt, size_singleton. cbn [length].
    assert (size (list_to_set ks ∖ {[x]} : gset string) <= size (list_to_set ks : gset string))%nat.
    { apply subseteq_size. set_solver. }
    pose proof (IH i j k ltac:(lia) Hi Hj). lia.
Qed.

(** Any occurrence of a key is followed by (or is) its last occurrence. *)
Lemma last_occurrence (ks : list string) : forall j k,
  ks !! j = Some k ->
  exists l, (j <= l)%nat /\ ks !! l = Some k /\ forall l', (l < l')%nat -> ks !! l' ≠ Some k.
Proof.
  induction ks as [|x ks IH]; intros j k Hj; [discriminate|].
  destruct (decide (k ∈ ks)) as [Hin|Hnot].
  - apply list_elem_of_lookup in Hin as [j' Hj'].
    destruct (IH j' k Hj') as (l & _ & Hl & Hlast).
    exists (S l). split; [|split].
    + destruct j as [|j]; [lia|]. simpl in Hj.
      destruct (decide (j <= l)%nat); [lia|].
      exfalso. apply (Hlast j); [lia | exact Hj].
    + exact Hl.
    + intros l' Hl'. destruct l' as [|l']; [lia|]. simpl. apply Hlast. lia.
  - destruct j as [|j]; simpl in Hj.
    + exists 0%nat. split; [lia|]. split; [exact Hj|].
      intros l' Hl'. destruct l' as [|l']; [lia|]. simpl. intros Hk.
      apply Hnot. apply list_elem_of_lookup. eauto.
    + exfalso. apply Hnot. apply list_elem_of_lookup. eauto.
Qed.

Section Props.
Context `{GoStd} {C : Type} `{V1 C}.

(** *** The callback of the multi-item path *)

Lemma item_ok c msg i p items tr :
  ttl_ok c msg i = true ->
  exists evs,
    writeMulti_item c msg i p (items, tr) = (None, (put items (entry c msg i p), tr ++ evs))
    /\ forallb is_local evs = true.
Proof.
  unfold ttl_ok, writeMulti_item, entry, ttl_of, put. simpl.
  destruct (decide (field.Resolve (ttl c) i msg ≠ EmptyString)) as [Hne|He].
  - destruct (ParseDuration (field.Resolve (ttl c) i msg)) as [t|terr]; simpl; [|discriminate].
    intros _. eexists. split; [reflexivity|reflexivity].
  - intros _. exists []. rewrite app_nil_r. split; reflexivity.
Qed.

Lemma item_fail c msg i p items tr :
  ttl_ok c msg i = false ->
  exists terr evs,
    ParseDuration (field.Resolve (ttl c) i msg) = Err terr
    /\ writeMulti_item c msg i p (items, tr) = (Some ("ttl field: " +:+ terr), (items, tr ++ evs))
    /\ forallb is_local evs = true.
Proof.
  unfold ttl_ok, writeMulti_item. simpl.
  destruct (decide (field.Resolve (ttl c) i msg ≠ EmptyString)) as [Hne|He]; [|discriminate].
  destruct (ParseDuration (field.Resolve (ttl c) i msg)) as [t|terr]; simpl; [discriminate|].
  intros _. exists terr. eexists. rewrite <- app_assoc. repeat split; reflexivity.
Qed.

Lemma ttl_ok_false c msg i terr :
  field.Resolve (ttl c) i msg ≠ EmptyString ->
  ParseDuration (field.Resolve (ttl c) i msg) = Err terr ->
  ttl_ok c msg i = false.
Proof.
  intros Hne Hp. unfold ttl_ok. rewrite Hp.
  destruct (decide _); [reflexivity | contradiction].
Qed.

(** Iteration stops with an error as soon as one TTL does not parse,
    having done nothing but parse and log. *)
Lemma IterFrom_fail c msg parts : forall i items tr l,
  (l < length parts)%nat -> ttl_ok c msg (i + l) = false ->
  exists e items' evs,
    message.IterFrom (writeMulti_item c msg) i parts (items, tr)
      = (Some e, (items', tr ++ evs))
    /\ forallb is_local evs = true.
Proof.
  induction parts as [|p rest IH]; intros i items tr l Hl Hbad; simpl in Hl; [lia|].
  cbn [message.IterFrom]. destruct (ttl_ok c msg i) eqn:Hi.
  - destruct (item_ok c msg i p items tr Hi) as (evs & -> & Hloc).
    destruct l as [|l]; [rewrite Nat.add_0_r in Hbad; congruence|].
    destruct (IH (S i) (put items (entry c msg i p)) (tr ++ evs) l) as (e & items' & evs' & -> & Hloc');
      [lia | by rewrite Nat.add_succ_comm |].
    exists e, items', (evs ++ evs'). rewrite app_assoc. split; [reflexivity|].
    by apply local_app.
  - destruct (item_fail c msg i p items tr Hi) as (terr & evs & _ & -> & Hloc).
    by exists ("ttl field: " +:+ terr), items, evs.
Qed.

(** With every TTL empty or parsable, iteration visits every index and
    accumulates the entries in batch order. *)
Lemma IterFrom_ok c msg parts : forall i items tr,
  (forall l, (l < length parts)%nat -> ttl_ok c msg (i + l) = true) ->
  exists evs,
    message.IterFrom (writeMulti_item c msg) i parts (items, tr)
      = (None, (foldl put items (imap (fun l p => entry c msg (i + l) p) parts), tr ++ evs))
    /\ forallb is_local evs = true.
Proof.
  induction parts as [|p rest IH]; intros i items tr Hok; cbn [message.IterFrom].
  - exists []. by rewrite app_nil_r.
  - destruct (item_ok c msg i p items tr) as (evs & -> & Hloc).
    { rewrite <- (Nat.add_0_r i) at 1. apply Hok. simpl; lia. }
    destruct (IH (S i) (put items (entry c msg i p)) (tr ++ evs)) as (evs' & -> & Hloc').
    { intros l Hl. rewrite Nat.add_succ_comm. apply Hok. simpl; lia. }
    exists (evs ++ evs'). rewrite app_assoc. split; [|by apply local_app].
    cbn [imap foldl]. rewrite Nat.add_0_r. do 3 f_equal.
    apply imap_ext. intros l x _. unfold compose. f_equal. lia.
Qed.

Lemma all_ttls_ok_spec c msg :
  all_ttls_ok c msg = true <-> forall l, (l < length msg)%nat -> ttl_ok c msg l = true.
Proof.
  unfold all_ttls_ok. rewrite forallb_forall. split.
  - intros Hall l Hl. apply Hall. apply in_seq. lia.
  - intros Hall l Hl%in_seq. apply Hall. lia.
Qed.

(** *** The two dispatch paths *)

Lemma writeMulti_fail c msg mgr l :
  (l < length msg)%nat -> ttl_ok c msg l = false ->
  exists e mgr' evs,
    writeMulti c msg mgr = (Some e, msg, mgr')
    /\ trace mgr' = trace mgr ++ evs
    /\ writes evs = [] /\ compiles evs = []
    /\ caches mgr' = caches mgr.
Proof.
  intros Hl Hbad. unfold writeMulti, AccessCache, message.Iter. simpl.
  destruct (caches mgr !! Target (conf c)) as [ac|] eqn:Hc.
  - destruct (IterFrom_fail c msg msg 0%nat ∅ (trace mgr ++ [EvAccessCache (Target (conf c))]) l Hl Hbad)
      as (e & items' & evs & -> & Hloc).
    simpl. eexists e, _, ([EvAccessCache (Target (conf c))] ++ evs).
    split; [reflexivity|]. simpl. rewrite <- app_assoc.
    repeat split; try reflexivity.
    + simpl. by apply writes_local.
    + simpl. by apply compiles_local.
    + by apply insert_id.
  - eexists _, _, [EvAccessCache (Target (conf c))]. repeat split; reflexivity.
Qed.

Lemma writeMulti_ok c msg mgr ac :
  caches mgr !! Target (conf c) = Some ac ->
  all_ttls_ok c msg = true ->
  exists mgr' evs,
    writeMulti c msg mgr = ((V1_SetMulti ac (mapping c msg)).1, msg, mgr')
    /\ trace mgr' = trace mgr ++ evs
    /\ writes evs = [EvSetMulti (Target (conf c)) (mapping c msg)]
    /\ compiles evs = []
    /\ caches mgr' = <[Target (conf c) := (V1_SetMulti ac (mapping c msg)).2]> (caches mgr).
Proof.
  intros Hc Hall. unfold writeMulti, AccessCache, message.Iter. simpl. rewrite Hc.
  destruct (IterFrom_ok c msg msg 0%nat ∅ (trace mgr ++ [EvAccessCache (Target (conf c))]))
    as (evs & -> & Hloc).
  { intros l Hl. by apply all_ttls_ok_spec. }
  change (foldl put ∅ (imap (fun l p => entry c msg (0 + l) p) msg)) with (mapping c msg).
  destruct (V1_SetMulti ac (mapping c msg)) as [serr ac'] eqn:Hs. simpl.
  eexists _, ([EvAccessCache (Target (conf c))] ++ evs ++ [EvSetMulti (Target (conf c)) (mapping c msg)]).
  split; [reflexivity|]. simpl. rewrite <- !app_assoc. repeat split; try reflexivity.
  - simpl. by rewrite writes_app, (writes_local evs).
  - simpl. by rewrite compiles_app, (compiles_local evs).
Qed.

Lemma WriteWithContext_multi c msg mgr :
  (1 < length msg)%nat -> WriteWithContext c msg mgr = writeMulti c msg mgr.
Proof.
  intros Hlen. unfold WriteWithContext, message.Len.
  destruct (decide (1 < length msg)%nat); [reflexivity | contradiction].
Qed.

Lemma WriteWithContext_single_fail c msg mgr terr :
  (length msg <= 1)%nat ->
  field.Resolve (ttl c) 0%nat msg ≠ EmptyString ->
  ParseDuration (field.Resolve (ttl c) 0%nat msg) = Err terr ->
  exists e mgr' evs,
    WriteWithContext c msg mgr = (Some e, msg, mgr')
    /\ (is_Some (caches mgr !! Target (conf c)) -> e = "ttl field: " +:+ terr)
    /\ trace mgr' = trace mgr ++ evs
    /\ writes evs = [] /\ compiles evs = []
    /\ caches mgr' = caches mgr.
Proof.
  intros Hlen Hne Hp. unfold WriteWithContext, message.Len.
  destruct (decide (1 < length msg)%nat); [lia|].
  unfold AccessCache. simpl.
  destruct (caches mgr !! Target (conf c)) as [ac|] eqn:Hc.
  - destruct (decide (field.Resolve (ttl c) 0%nat msg ≠ EmptyString)); [|contradiction].
    rewrite Hp. simpl. eexists _, _, _. split; [reflexivity|]. simpl.
    rewrite <- !app_assoc. repeat split; try reflexivity.
    by apply insert_id.
  - eexists _, _, _. split; [reflexivity|]. simpl.
    split; [by intros [? ?]|]. repeat split; reflexivity.
Qed.

Lemma WriteWithContext_single_ok c msg mgr ac :
  (length msg <= 1)%nat ->
  caches mgr !! Target (conf c) = Some ac ->
  ttl_ok c msg 0%nat = true ->
  let name := Target (conf c) in
  let k := field.Resolve (key c) 0%nat msg in
  let v := message.Get (message.BatchGet msg 0%nat) in
  let t := ttl_of c msg 0%nat in
  exists mgr' evs,
    WriteWithContext c msg mgr = ((V1_Set ac k v t).1, msg, mgr')
    /\ trace mgr' = trace mgr ++ [EvAccessCache name] ++ evs ++ [EvSet name k v t]
    /\ forallb is_local evs = true
    /\ (field.Resolve (ttl c) 0%nat msg = EmptyString -> evs = [])
    /\ caches mgr' = <[name := (V1_Set ac k v t).2]> (caches mgr).
Proof.
  intros Hlen Hc Hok name k v t. unfold WriteWithContext, message.Len.
  destruct (decide (1 < length msg)%nat); [lia|].
  unfold AccessCache. simpl. rewrite Hc.
  subst t. unfold ttl_ok, ttl_of in *. fold name k v.
  destruct (decide (field.Resolve (ttl c) 0%nat msg ≠ EmptyString)) as [Hne|He].
  - destruct (ParseDuration (field.Resolve (ttl c) 0%nat msg)) as [t|terr]; [|discriminate].
    destruct (V1_Set ac k v (Some t)) as [serr ac']. simpl.
    eexists _, [EvParseDuration _]. split; [reflexivity|]. simpl.
    rewrite <- !app_assoc. repeat split; try reflexivity. by intros ?.
  - destruct (V1_Set ac k v None) as [serr ac']. simpl.
    eexists _, []. split; [reflexivity|]. simpl.
    rewrite <- !app_assoc. repeat split; reflexivity.
Qed.


Lemma ttl_ok_false_inv c msg i :
  ttl_ok c msg i = false ->
  field.Resolve (ttl c) i msg ≠ EmptyString
  /\ exists terr, ParseDuration (field.Resolve (ttl c) i msg) = Err terr.
Proof.
  unfold ttl_ok. destruct (decide _) as [Hne|]; [|discriminate].
  destruct (ParseDuration _) as [t|terr]; [discriminate|]. eauto.
Qed.

Lemma all_ttls_ok_false c msg :
  all_ttls_ok c msg = false ->
  exists l, (l < length msg)%nat /\ ttl_ok c msg l = false.
Proof.
  unfold all_ttls_ok. intros Hall.
  assert (forall xs, forallb (ttl_ok c msg) xs = false ->
            exists l, In l xs /\ ttl_ok c msg l = false) as Hex.
  { induction xs as [|x xs IH]; simpl; [discriminate|].
    destruct (ttl_ok c msg x) eqn:Hx; simpl.
    - intros (l & Hl & Hbad)%IH. eauto.
    - eauto. }
  destruct (Hex _ Hall) as (l & Hl%in_seq & Hbad). exists l. split; [lia | exact Hbad].
Qed.

Lemma dispatch_cache_missing c msg mgr :
  caches mgr !! Target (conf c) = None ->
  exists e, WriteWithContext c msg mgr
            = (Some e, msg, emit mgr [EvAccessCache (Target (conf c))]).
Proof.
  intros Hc. unfold WriteWithContext, writeMulti, AccessCache. simpl. rewrite Hc.
  destruct (decide _); eauto.
Qed.

(** A dispatch appends to the trace, compiles no template and leaves the
    batch as it found it. *)
Lemma WriteWithContext_trace c msg mgr :
  exists evs,
    trace (WriteWithContext c msg mgr).2 = trace mgr ++ evs
    /\ compiles evs = []
    /\ (WriteWithContext c msg mgr).1.2 = msg.
Proof.
  destruct (caches mgr !! Target (conf c)) as [ac|] eqn:Hc.
  - destruct (decide (1 < length msg)%nat) as [Hlen|Hlen].
    + rewrite (WriteWithContext_multi c msg mgr Hlen).
      destruct (all_ttls_ok c msg) eqn:Hall.
      * destruct (writeMulti_ok c msg mgr ac Hc Hall) as (mgr' & evs & -> & Ht & _ & Hcomp & _).
        exists evs. by repeat split.
      * destruct (all_ttls_ok_false c msg Hall) as (l & Hl & Hbad).
        destruct (writeMulti_fail c msg mgr l Hl Hbad) as (e & mgr' & evs & -> & Ht & _ & Hcomp & _).
        exists evs. by repeat split.
    + destruct (ttl_ok c msg 0%nat) eqn:Hok.
      * destruct (WriteWithContext_single_ok c msg mgr ac ltac:(lia) Hc Hok)
          as (mgr' & evs & -> & Ht & Hloc & _).
        eexists. split; [exact Ht|]. split; [|reflexivity].
        rewrite !compiles_app, (compiles_local evs Hloc). reflexivity.
      * destruct (ttl_ok_false_inv c msg 0%nat Hok) as (Hne & terr & Hp).
        destruct (WriteWithContext_single_fail c msg mgr terr ltac:(lia) Hne Hp)
          as (e & mgr' & evs & -> & _ & Ht & _ & Hcomp & _).
        exists evs. by repeat split.
  - destruct (dispatch_cache_missing c msg mgr Hc) as (e & ->).
    exists [EvAccessCache (Target (conf c))]. by repeat split.
Qed.

(** *** The claims *)

(** C7.  A batch of size 1 whose resolved TTL is non-empty and does not
    parse as a duration: the dispatch returns one error (the wrapped
    parse error when the target resource is found), makes no [Set] nor
    any other write to the external store, leaves every store as it was
    and leaves the batch as it was. *)
Theorem single_ttl_parse_failure c msg mgr terr :
  length msg = 1%nat ->
  field.Resolve (ttl c) 0%nat msg ≠ EmptyString ->
  ParseDuration (field.Resolve (ttl c) 0%nat msg) = Err terr ->
  let '(err, msg', mgr') := WriteWithContext c msg mgr in
  is_Some err
  /\ (is_Some (caches mgr !! Target (conf c)) -> err = Some ("ttl field: " +:+ terr))
  /\ writes (new_events mgr mgr') = []
  /\ caches mgr' = caches mgr
  /\ msg' = msg.
Proof.
  intros Hlen Hne Hp.
  destruct (WriteWithContext_single_fail c msg mgr terr ltac:(lia) Hne Hp)
    as (e & mgr' & evs & -> & He & Ht & Hw & _ & Hc).
  rewrite (cache_new_events_app mgr mgr' evs Ht).
  repeat split; eauto. intros Hsome. by rewrite (He Hsome).
Qed.

(** C2.  A batch of size greater than 1 in which the resolved TTL of
    some message is non-empty and does not parse: the dispatch returns an
    error, [SetMulti] is not invoked (nor any other write), no store
    changes, and the batch is left as it was (no message gains an item
    error). *)
Theorem multi_ttl_parse_failure c msg mgr i terr :
  (1 < length msg)%nat ->
  (i < length msg)%nat ->
  field.Resolve (ttl c) i msg ≠ EmptyString ->
  ParseDuration (field.Resolve (ttl c) i msg) = Err terr ->
  let '(err, msg', mgr') := WriteWithContext c msg mgr in
  is_Some err
  /\ writes (new_events mgr mgr') = []
  /\ caches mgr' = caches mgr
  /\ msg' = msg
  /\ Forall2 (fun p p' => message.GetError p' = message.GetError p) msg msg'.
Proof.
  intros Hlen Hi Hne Hp. rewrite (WriteWithContext_multi c msg mgr Hlen).
  destruct (writeMulti_fail c msg mgr i Hi (ttl_ok_false c msg i terr Hne Hp))
    as (e & mgr' & evs & -> & Ht & Hw & _ & Hc).
  rewrite (cache_new_events_app mgr mgr' evs Ht).
  repeat split; eauto. by apply Forall2_same_length_lookup_2; [|intros ??? -> [= ->]].
Qed.

(** C6.  A single-message batch whose ttl template resolves to the empty
    string: after looking the target up, the dispatch does exactly one
    thing, a [Set] of the resolved key and the payload with a nil TTL; no
    duration parse takes place; the result is that of the [Set]. *)
Theorem single_empty_ttl c p mgr ac :
  caches mgr !! Target (conf c) = Some ac ->
  field.Resolve (ttl c) 0%nat [p] = EmptyString ->
  let name := Target (conf c) in
  let k := field.Resolve (key c) 0%nat [p] in
  let v := message.Get p in
  let '(err, msg', mgr') := WriteWithContext c [p] mgr in
  new_events mgr mgr' = [EvAccessCache name; EvSet name k v None]
  /\ err = (V1_Set ac k v None).1
  /\ caches mgr' = <[name := (V1_Set ac k v None).2]> (caches mgr)
  /\ msg' = [p].
Proof.
  intros Hc He name k v.
  assert (ttl_ok c [p] 0%nat = true) as Hok.
  { unfold ttl_ok. rewrite He. by destruct (decide _). }
  assert (ttl_of c [p] 0%nat = None) as Hnone.
  { unfold ttl_of. rewrite He. by destruct (decide _). }
  destruct (WriteWithContext_single_ok c [p] mgr ac ltac:(simpl; lia) Hc Hok)
    as (mgr' & evs & -> & Ht & _ & Hevs & Hcs).
  rewrite (Hevs He) in Ht. rewrite Hnone in *.
  rewrite (cache_new_events_app mgr mgr' _ Ht). by repeat split.
Qed.

(** C5, as amended.  When the target resource is found and every
    resolved TTL is empty or parses as a duration, the writes of a
    dispatch are determined by the batch size: exactly one [Set] of the
    key, payload and optional TTL of index 0 for size 1, exactly one
    [SetMulti] of the mapping built from every index for size greater
    than 1. *)
Theorem dispatch_shape_when_ttls_parse c msg mgr :
  is_Some (caches mgr !! Target (conf c)) ->
  all_ttls_ok c msg = true ->
  dispatch_shape c msg mgr.
Proof.
  intros [ac Hc] Hall. unfold dispatch_shape.
  destruct (decide (1 < length msg)%nat) as [Hlen|Hlen].
  - rewrite (WriteWithContext_multi c msg mgr Hlen).
    destruct (writeMulti_ok c msg mgr ac Hc Hall) as (mgr' & evs & -> & Ht & Hw & _).
    rewrite (cache_new_events_app mgr mgr' evs Ht). split; [lia | by intros _].
  - assert (length msg = 1%nat -> ttl_ok c msg 0%nat = true) as Hok.
    { intros H1. apply all_ttls_ok_spec; [exact Hall | lia]. }
    destruct (WriteWithContext c msg mgr) as [[err msg'] mgr'] eqn:Hw.
    split; [|lia]. intros H1.
    destruct (WriteWithContext_single_ok c msg mgr ac ltac:(lia) Hc (Hok H1))
      as (mgr2 & evs & Hw2 & Ht & Hloc & _).
    rewrite Hw in Hw2. injection Hw2 as _ _ <-.
    rewrite (cache_new_events_app mgr mgr' _ Ht).
    rewrite !writes_app, (writes_local evs Hloc). reflexivity.
Qed.

(** C10.  In the multi-item path two messages at different indices that
    resolve to the same key share one entry: [SetMulti] is called once
    with a mapping of strictly fewer entries than the batch has
    messages; the entry under the shared key is that of the last index
    resolving to it, which is at or after the later of the two; no entry
    of the mapping stems from the earlier index; and the dispatch reports
    nothing but the result of [SetMulti]. *)
Theorem multi_duplicate_key c msg mgr ac i j p_i p_j :
  caches mgr !! Target (conf c) = Some ac ->
  all_ttls_ok c msg = true ->
  (i < j)%nat ->
  msg !! i = Some p_i -> msg !! j = Some p_j ->
  field.Resolve (key c) i msg = field.Resolve (key c) j msg ->
  let items := mapping c msg in
  let k := field.Resolve (key c) i msg in
  let '(err, msg', mgr') := WriteWithContext c msg mgr in
  writes (new_events mgr mgr') = [EvSetMulti (Target (conf c)) items]
  /\ (size items < length msg)%nat
  /\ (exists l p_l, (j <= l)%nat /\ msg !! l = Some p_l
         /\ field.Resolve (key c) l msg = k
         /\ (forall l', (l < l' < length msg)%nat -> field.Resolve (key c) l' msg ≠ k)
         /\ items !! k = Some (entry c msg l p_l).2)
  /\ (forall k' it, items !! k' = Some it ->
         exists l p_l, l ≠ i /\ msg !! l = Some p_l /\ entry c msg l p_l = (k', it))
  /\ err = (V1_SetMulti ac items).1.
Proof.
  intros Hc Hall Hij Hi Hj Hkey items k.
  assert (1 < length msg)%nat as Hlen.
  { apply lookup_lt_Some in Hj. lia. }
  rewrite (WriteWithContext_multi c msg mgr Hlen).
  destruct (writeMulti_ok c msg mgr ac Hc Hall) as (mgr' & evs & -> & Ht & Hw & _).
  rewrite (cache_new_events_app mgr mgr' evs Ht).
  assert (forall l, (entries c msg).*1 !! l = (fun _ => field.Resolve (key c) l msg) <$> msg !! l)
    as Hkeys.
  { intros l. unfold entries. rewrite list_lookup_fmap, list_lookup_imap.
    rewrite <- option_fmap_compose. reflexivity. }
  assert (forall l, entries c msg !! l = entry c msg l <$> msg !! l) as Hent.
  { intros l. unfold entries. by rewrite list_lookup_imap. }
  split; [exact Hw|]. split; [|split; [|split; [|reflexivity]]].
  - rewrite <- size_dom. unfold items, mapping.
    rewrite foldl_put_dom, dom_empty_L, (left_id_L ∅ (∪)).
    replace (length msg) with (length (entries c msg).*1)
      by (unfold entries; by rewrite length_fmap, length_imap).
    apply (size_list_to_set_dup _ i j k Hij).
    + by rewrite Hkeys, Hi.
    + rewrite Hkeys, Hj. simpl. by rewrite <- Hkey.
  - destruct (last_occurrence (entries c msg).*1 j k) as (l & Hjl & Hl & Hlast).
    { rewrite Hkeys, Hj. simpl. by rewrite <- Hkey. }
    rewrite Hkeys in Hl. destruct (msg !! l) as [p_l|] eqn:Hpl; [|discriminate].
    injection Hl as Hl. exists l, p_l. repeat split; try done.
    + intros l' [Hl' Hlen'] Heq. apply (Hlast l' Hl').
      rewrite Hkeys. destruct (lookup_lt_is_Some_2 msg l' Hlen') as [p' ->].
      simpl. by rewrite Heq.
    + apply (foldl_put_lookup_last (entries c msg) ∅ l).
      * rewrite Hent, Hpl. simpl. unfold entry at 1. by rewrite Hl.
      * intros l' e Hl' He Heq. apply (Hlast l' Hl').
        rewrite list_lookup_fmap, He. simpl. by rewrite Heq.
  - intros k' it Hk'.
    destruct (foldl_put_lookup_origin (entries c msg) k' it Hk') as (l & Hl & Hlast).
    rewrite Hent in Hl. destruct (msg !! l) as [p_l|] eqn:Hpl; [|discriminate].
    injection Hl as Hl Hit. exists l, p_l.
    split; [|split; [exact Hpl | by unfold entry; rewrite Hl, Hit]].
    intros ->. apply (Hlast j (entry c msg j p_j) Hij).
    + by rewrite Hent, Hj.
    + simpl. rewrite <- Hkey. exact Hl.
Qed.

(** C8.  Construction fails exactly when the key template is malformed,
    the ttl template is malformed, or the target resource is not
    registered.  When it succeeds, the writer holds the two compiled
    templates, construction compiled each of them once, and no dispatch
    compiles anything. *)
Theorem NewCacheWriter_fails_iff (cf : CacheConfig) (mgr : NewManagement C) :
  let '(res, mgr') := NewCacheWriter cf mgr in
  (is_err res = true <->
     is_err (NewField mgr (Key cf)) = true
     \/ is_err (NewField mgr (TTL cf)) = true
     \/ caches mgr !! Target cf = None)
  /\ (forall c, res = Ok c ->
        conf c = cf
        /\ NewField mgr (Key cf) = Ok (key c)
        /\ NewField mgr (TTL cf) = Ok (ttl c)
        /\ compiles (new_events mgr mgr') = [EvNewField (Key cf); EvNewField (TTL cf)]
        /\ forall msg mgr1,
             compiles (new_events mgr1 (WriteWithContext c msg mgr1).2) = []).
Proof.
  unfold NewCacheWriter, compileField, ProbeCache. cbn [emit NewField caches trace].
  destruct (NewField mgr (Key cf)) as [k|e1] eqn:Hk.
  2:{ split; [split; auto | intros c [=]]. }
  destruct (NewField mgr (TTL cf)) as [t|e2] eqn:Ht.
  2:{ split; [split; auto | intros c [=]]. }
  destruct (caches mgr !! Target cf) as [ac|] eqn:Hc.
  - rewrite bool_decide_true by eauto. cbn [negb]. split.
    + split; [discriminate | intros [|[|]]; discriminate].
    + intros c [= <-]. cbn [conf key ttl]. repeat split.
      * unfold new_events, emit. cbn [trace]. rewrite <- !app_assoc, drop_app_length. reflexivity.
      * intros msg mgr1.
        destruct (WriteWithContext_trace (mkCacheWriter cf k t) msg mgr1) as (evs & Htr & Hcomp & _).
        by rewrite (cache_new_events_app _ _ evs Htr).
  - rewrite bool_decide_false by (intros [? ?]; discriminate). cbn [negb].
    split; [split; auto | intros c [=]].
Qed.

End Props.

(** *** The claims on concrete inputs *)

Lemma single_ttl_parse_failure_witness :
  let msg := [demo.part_ttl "x1" "soon"] in
  let '(err, msg', mgr') := WriteWithContext demo.writer msg demo.mgr in
  is_Some err
  /\ (is_Some (caches demo.mgr !! "foo") -> err = Some "ttl field: time: invalid duration soon")
  /\ writes (new_events demo.mgr mgr') = []
  /\ caches mgr' = caches demo.mgr
  /\ msg' = msg.
Proof.
  apply (single_ttl_parse_failure demo.writer [demo.part_ttl "x1" "soon"] demo.mgr
           "time: invalid duration soon");
    [reflexivity | discriminate | reflexivity].
Defined.

Lemma multi_ttl_parse_failure_witness :
  let msg := [demo.part_ttl "x1" "60s"; demo.part_ttl "x2" "soon"; demo.part "x3"] in
  let '(err, msg', mgr') := WriteWithContext demo.writer msg demo.mgr in
  is_Some err
  /\ writes (new_events demo.mgr mgr') = []
  /\ caches mgr' = caches demo.mgr
  /\ msg' = msg
  /\ Forall2 (fun p p' => message.GetError p' = message.GetError p) msg msg'.
Proof.
  apply (multi_ttl_parse_failure demo.writer
           [demo.part_ttl "x1" "60s"; demo.part_ttl "x2" "soon"; demo.part "x3"]
           demo.mgr 1%nat "time: invalid duration soon");
    [simpl; lia | simpl; lia | discriminate | reflexivity].
Defined.

Lemma single_empty_ttl_witness :
  let '(err, msg', mgr') := WriteWithContext demo.writer [demo.part "x1"] demo.mgr in
  new_events demo.mgr mgr' = [EvAccessCache "foo"; EvSet "foo" "x1" "x1" None]
  /\ err = None
  /\ caches mgr' = <[ "foo" := <[ "x1" := mkTTLItem "x1" None ]> ∅ ]> (caches demo.mgr)
  /\ msg' = [demo.part "x1"].
Proof.
  exact (single_empty_ttl demo.writer (demo.part "x1") demo.mgr ∅ eq_refl eq_refl).
Defined.

(** C5 as stated fails: a batch of size 1 whose TTL does not parse
    performs no [Set] at all. *)
Lemma dispatch_shape_counterexample :
  ~ dispatch_shape demo.writer [demo.part_ttl "x1" "soon"] demo.mgr.
Proof.
  unfold dispatch_shape.
  destruct (WriteWithContext demo.writer [demo.part_ttl "x1" "soon"] demo.mgr)
    as [[err msg'] mgr'] eqn:Hw.
  vm_compute in Hw. injection Hw as _ _ <-.
  intros [Hone _]. specialize (Hone eq_refl). discriminate Hone.
Qed.

Lemma dispatch_shape_when_ttls_parse_witness :
  dispatch_shape demo.writer [demo.part_ttl "x1" "60s"] demo.mgr
  /\ dispatch_shape demo.writer [demo.part_ttl "x1" "60s"; demo.part "x2"] demo.mgr.
Proof.
  split; apply dispatch_shape_when_ttls_parse; solve [by eexists | by vm_compute].
Defined.

Lemma multi_duplicate_key_witness :
  let c := demo.writer in
  let msg := [demo.part "a"; demo.part "b"; demo.part_ttl "a" "60s"] in
  let items := mapping c msg in
  let k := field.Resolve (key c) 0%nat msg in
  let '(err, msg', mgr') := WriteWithContext c msg demo.mgr in
  writes (new_events demo.mgr mgr') = [EvSetMulti (Target (conf c)) items]
  /\ (size items < length msg)%nat
  /\ (exists l p_l, (2 <= l)%nat /\ msg !! l = Some p_l
         /\ field.Resolve (key c) l msg = k
         /\ (forall l', (l < l' < length msg)%nat -> field.Resolve (key c) l' msg ≠ k)
         /\ items !! k = Some (entry c msg l p_l).2)
  /\ (forall k' it, items !! k' = Some it ->
         exists l p_l, l ≠ 0%nat /\ msg !! l = Some p_l /\ entry c msg l p_l = (k', it))
  /\ err = (V1_SetMulti (∅ : gmap string TTLItem) items).1.
Proof.
  intros c msg.
  exact (multi_duplicate_key c msg demo.mgr ∅ 0%nat 2%nat (demo.part "a")
           (demo.part_ttl "a" "60s") eq_refl eq_refl ltac:(lia) eq_refl eq_refl eq_refl).
Defined.

Lemma NewCacheWriter_fails_iff_witness :
  (NewCacheWriter demo.cfg demo.mgr).1 = Ok demo.writer
  /\ is_err (NewCacheWriter (mkCacheConfig "bar" "${!content()}" "60s" 1) demo.mgr).1 = true
  /\ is_err (NewCacheWriter (mkCacheConfig "foo" "${!oops" "60s" 1) demo.mgr).1 = true
  /\ is_err (NewCacheWriter (mkCacheConfig "foo" "${!content()}" "${!oops" 1) demo.mgr).1 = true.
Proof.
  pose proof (NewCacheWriter_fails_iff demo.cfg demo.mgr) as H0.
  pose proof (NewCacheWriter_fails_iff (mkCacheConfig "bar" "${!content()}" "60s" 1) demo.mgr) as H1.
  pose proof (NewCacheWriter_fails_iff (mkCacheConfig "foo" "${!oops" "60s" 1) demo.mgr) as H2.
  pose proof (NewCacheWriter_fails_iff (mkCacheConfig "foo" "${!content()}" "${!oops" 1) demo.mgr) as H3.
  destruct (NewCacheWriter demo.cfg demo.mgr) as [r0 m0] eqn:E0.
  destruct (NewCacheWriter (mkCacheConfig "bar" _ _ _) demo.mgr) as [r1 m1].
  destruct (NewCacheWriter (mkCacheConfig "foo" "${!oops" _ _) demo.mgr) as [r2 m2].
  destruct (NewCacheWriter (mkCacheConfig "foo" "${!content()}" "${!oops" _) demo.mgr) as [r3 m3].
  split; [by vm_compute in E0; injection E0 as <- _|].
  split; [apply H1; right; right; reflexivity|].
  split; [apply H2; left; reflexivity|].
  apply H3; right; left; reflexivity.
Defined.

End CacheSink.

(** * Properties of the redis processor *)

Module RedisProc.
Import message redis redis_obs.

Ltac munfold := unfold mbind, M_bind, mret, M_ret.

(** Runs the calls of an operator in program order, splitting on each
    outcome. *)
Ltac run :=
  repeat match goal with
  | |- context [AsBytes ?p] => destruct (AsBytes p)
  | |- context [Atoi ?b] => destruct (Atoi b)
  | |- context [call ?c ?f ?w] => destruct (call c f w) as [? ?]
  | |- context [retry ?r ?f ?a ?g ?res ?w] => destruct (retry r f a g res w) as [[?|?] ?]
  end.

Lemma PartCopy_id (p : Part) : PartCopy p = p.
Proof. by destruct p. Qed.

Lemma Copy_id (m : Batch) : Copy m = m.
Proof.
  unfold Copy. induction m as [|p m IH]; simpl; [reflexivity|].
  by rewrite PartCopy_id, IH.
Qed.

Lemma calls_app (tr1 tr2 : list Event) : calls (tr1 ++ tr2) = calls tr1 ++ calls tr2.
Proof. apply List.filter_app. Qed.

Lemma sleeps_app (tr1 tr2 : list Event) : sleeps (tr1 ++ tr2) = sleeps tr1 ++ sleeps tr2.
Proof. apply List.filter_app. Qed.

Lemma redis_new_events_app {C} (w w' : World C) (evs : list Event) :
  trace w' = trace w ++ evs -> new_events w w' = evs.
Proof. intros E. unfold new_events. rewrite E. apply drop_app_length. Qed.

(** *** What the rounds of the retry loop look like *)

Lemma rounds_counts cmd e0 evs e2 :
  rounds cmd e0 evs e2 -> length (sleeps evs) = length (calls evs).
Proof.
  induction 1 as [e|err fmt args d cxl e1 evs e2 Hcxl _ IH]; [reflexivity|].
  destruct Hcxl as [-> | ->]; simpl; by rewrite IH.
Qed.

(** A successful attempt is never followed by another round. *)
Lemma rounds_after_success cmd evs e2 :
  rounds cmd None evs e2 -> evs = [] /\ e2 = None.
Proof. by inversion 1. Qed.

(** The loop leaves with the outcome of the last invocation. *)
Lemma rounds_last_outcome cmd e0 evs e2 :
  rounds cmd e0 evs e2 -> last_outcome (EvCall cmd e0 :: evs) = Some e2.
Proof.
  induction 1 as [e|err fmt args d cxl e1 evs e2 Hcxl _ IH]; [reflexivity|].
  unfold last_outcome in *.
  replace (calls (EvCall cmd (Some err) :: EvErrorf fmt args :: EvSleep d :: cxl
                    ++ EvCall cmd e1 :: evs))
    with (EvCall cmd (Some err) :: calls (EvCall cmd e1 :: evs))
    by (destruct Hcxl as [-> | ->]; reflexivity).
  simpl in *. exact IH.
Qed.

(** A cancellation is directly followed by the next invocation. *)
Lemma rounds_after_cancel cmd e0 evs e2 :
  rounds cmd e0 evs e2 -> In EvCancelled evs ->
  exists e post, after_cancel evs = EvCall cmd e :: post.
Proof.
  induction 1 as [e|err fmt args d cxl e1 evs e2 Hcxl _ IH]; intros Hin; [destruct Hin|].
  destruct Hcxl as [-> | ->]; simpl.
  - apply IH. simpl in Hin. destruct Hin as [|[|[|]]]; (discriminate || assumption).
  - eauto.
Qed.

Section Props.
Context `{GoStd} {C : Type} `{UniversalClient C}.

Lemma call_invokes {A} (c : Cmd) (f : C -> result A * C) : invokes c (call c f).
Proof. intros w. unfold call. destruct (f (client w)) as [res cl]. eauto. Qed.

Lemma doDoContext_invokes (args : list Value) : invokes (CmdDo args) (doDoContext args).
Proof. intros w. unfold doDoContext. apply call_invokes. Qed.

(** The retry loop: it returns, having added rounds of the shape above,
    at most one per value of the counter; it leaves with an error only
    when it was entered with one and every round was used. *)
Lemma retry_loop_rounds {A} (cmd : Cmd) (again : M C (result A)) :
  invokes cmd again ->
  forall iters d fmt args res w,
  exists res' w' evs,
    retry_loop iters d fmt args again res w = (res', w')
    /\ trace w' = trace w ++ evs
    /\ rounds cmd (err_of res) evs (err_of res')
    /\ (length (calls evs) <= length iters)%nat
    /\ (is_err res' = true -> is_err res = true /\ length (calls evs) = length iters)
    /\ (is_err res = false -> res' = res).
Proof.
  intros Hinv iters d fmt args. induction iters as [|i iters IH]; intros res w.
  - exists res, w, []. rewrite app_nil_r. simpl.
    repeat split; try constructor; try done.
  - destruct res as [a|err].
    + exists (Ok a), w, []. rewrite app_nil_r. simpl.
      repeat split; try constructor; try done; lia.
    + cbn [retry_loop]. munfold. unfold Errorf, emit, Sleep. cbn [client now cancel_at trace].
      set (cxl := if match cancel_at w with
                     | Some c => bool_decide (now w < c <= now w + Z.max 0 d)
                     | None => false
                     end then [EvCancelled] else []).
      match goal with |- context [again ?W] => destruct (Hinv W) as (res1 & cl & ->) end.
      cbn [client now cancel_at trace].
      match goal with |- context [retry_loop iters d fmt args again res1 ?W] =>
        destruct (IH res1 W) as (res' & w' & evs & -> & Ht & Hr & Hle & Herr & Hok) end.
      cbn [trace] in Ht.
      assert (cxl = [] \/ cxl = [EvCancelled]) as Hcxl.
      { subst cxl. destruct (match cancel_at w with Some _ => _ | None => _ end); auto. }
      exists res', w', (EvErrorf fmt (args ++ [err]) :: EvSleep d :: cxl ++ EvCall cmd (err_of res1) :: evs).
      split; [reflexivity|]. split.
      { rewrite Ht. rewrite <- !app_assoc. simpl. by rewrite <- ?app_assoc. }
      split; [by constructor|].
      assert (calls (EvErrorf fmt (args ++ [err]) :: EvSleep d :: cxl ++ EvCall cmd (err_of res1) :: evs)
              = EvCall cmd (err_of res1) :: calls evs) as ->.
      { destruct Hcxl as [-> | ->]; reflexivity. }
      simpl. split; [lia|]. split; [|discriminate].
      intros Hres'. split; [reflexivity|]. destruct (Herr Hres') as [_ ->]. reflexivity.
Qed.

Lemma retry_rounds {A} (cmd : Cmd) (again : M C (result A)) r fmt args res w :
  invokes cmd again ->
  exists res' w' evs,
    retry r fmt args again res w = (res', w')
    /\ trace w' = trace w ++ evs
    /\ rounds cmd (err_of res) evs (err_of res')
    /\ (length (calls evs) <= Z.to_nat (retries r + 1))%nat
    /\ (is_err res' = true -> is_err res = true /\ length (calls evs) = Z.to_nat (retries r + 1))
    /\ (is_err res = false -> res' = res).
Proof.
  intros Hinv. unfold retry.
  destruct (retry_loop_rounds cmd again Hinv (seqZ 0 (retries r + 1)) (retryPeriod r) fmt args res w)
    as (res' & w' & evs & E & Ht & Hr & Hle & Herr & Hok).
  rewrite length_seqZ in *. by exists res', w', evs.
Qed.

(** [execRaw]: either the arguments could not be resolved and nothing
    was invoked, or the command was invoked once and then retried in
    rounds. *)
Lemma execRaw_shape r index inBatch msg w :
  exists err part' w',
    execRaw r index inBatch msg w = ((err, part'), w')
    /\ ((w' = w /\ is_Some err /\ part' = msg)
        \/ exists args e0 evs,
             trace w' = trace w ++ EvCall (CmdDo args) e0 :: evs
             /\ rounds (CmdDo args) e0 evs err
             /\ (length (calls evs) <= Z.to_nat (retries r + 1))%nat
             /\ (is_Some err -> is_Some e0 /\ length (calls evs) = Z.to_nat (retries r + 1))
             /\ match err with
                | Some _ => part' = msg
                | None => exists res, part' = SetStructured msg res
                end).
Proof.
  unfold execRaw.
  destruct (bloblang.Query (argsMapping r) index inBatch) as [resMsg|e]; [|by eexists _, _, _; split; [reflexivity|left]].
  destruct (AsStructured resMsg) as [iargs|e]; [|by eexists _, _, _; split; [reflexivity|left]].
  destruct iargs as [| | | | | | |args|]; try (by eexists _, _, _; split; [reflexivity|left]).
  munfold.
  set (cargs := VString (field.Resolve (command r) index inBatch) :: map normalise args).
  destruct (doDoContext_invokes cargs w) as (res0 & cl & ->).
  match goal with |- context [retry r ?f ?a (doDoContext cargs) res0 ?W] =>
    destruct (retry_rounds (CmdDo cargs) (doDoContext cargs) r f a res0 W (doDoContext_invokes cargs))
      as (res' & w' & evs & -> & Ht & Hr & Hle & Herr & Hok) end.
  cbn [trace] in Ht.
  destruct res' as [v|e]; eexists _, _, w'; (split; [reflexivity|right]);
    exists cargs, (err_of res0), evs; rewrite Ht, <- app_assoc; simpl.
  - split; [reflexivity|]. split; [exact Hr|]. split; [exact Hle|].
    split; [by intros [? [=]]|]. by eexists.
  - split; [reflexivity|]. split; [exact Hr|]. split; [exact Hle|].
    split; [|reflexivity]. intros _. destruct (Herr eq_refl) as [Hres0 ->].
    split; [|reflexivity]. destruct res0; [discriminate | by eexists].
Qed.


(** *** One message *)

(** A failed attempt leaves the message untouched; a successful one
    replaces its content and nothing else. *)
Lemma operator_part op r k part w :
  let '((err, part'), _) := run_operator op r k part w in
  match err with
  | Some _ => part' = part
  | None => GetError part' = GetError part /\ metadata part' = metadata part
  end.
Proof.
  destruct op; unfold run_operator, newRedisKeysOperator, newRedisSCardOperator,
    newRedisSAddOperator, newRedisIncrByOperator, doKeys, doSCard, doSAdd, doIncrBy;
    munfold; run; simpl; auto.
Qed.

Lemma execRaw_part r index inBatch part w :
  let '((err, part'), _) := execRaw r index inBatch part w in
  match err with
  | Some _ => part' = part
  | None => GetError part' = GetError part /\ metadata part' = metadata part
  end.
Proof.
  destruct (execRaw_shape r index inBatch part w) as (err & part' & w' & -> & Hshape).
  destruct Hshape as [(_ & [e ->] & ->) | (args & e0 & evs & _ & _ & _ & _ & Hpart)];
    [reflexivity|].
  destruct err; [exact Hpart|]. by destruct Hpart as [res ->].
Qed.

Lemma attempt_part r inBatch i part w :
  let '((err, part'), _) := attempt r inBatch i part w in
  match err with
  | Some _ => part' = part
  | None => GetError part' = GetError part /\ metadata part' = metadata part
  end.
Proof.
  unfold attempt. destruct (operator r); [apply operator_part | apply execRaw_part].
Qed.

(** The message the loop body leaves at an index, in terms of what was
    attempted on it. *)
Lemma process_part_out r inBatch i part w :
  (process_part r inBatch i part w).1 =
    let '((err, part'), _) := attempt r inBatch i part w in
    match err with
    | Some e => SetError part' (item_error r e)
    | None => part'
    end.
Proof.
  unfold process_part, attempt, item_error. destruct (operator r) as [op|]; munfold.
  - destruct (run_operator op r _ part w) as [[[e|] part'] w1]; reflexivity.
  - destruct (execRaw r i inBatch part w) as [[[e|] part'] w1]; reflexivity.
Qed.

(** *** The loop over the batch *)

Lemma process_parts_length r inBatch parts : forall index w,
  length (process_parts r inBatch index parts w).1 = length parts.
Proof.
  induction parts as [|p rest IH]; intros index w; [reflexivity|].
  cbn [process_parts]. munfold.
  destruct (process_part r inBatch index p w) as [p' w1].
  specialize (IH (S index) w1).
  destruct (process_parts r inBatch (S index) rest w1) as [rest' w2].
  simpl in *. by rewrite IH.
Qed.

(** The message at position [i] is handled in the world left by the
    handling of the positions before it, whatever their outcome. *)
Lemma process_parts_lookup r inBatch parts : forall index w i p,
  parts !! i = Some p ->
  (process_parts r inBatch index parts w).1 !! i =
    Some (process_part r inBatch (index + i) p
            (process_parts r inBatch index (take i parts) w).2).1.
Proof.
  induction parts as [|q rest IH]; intros index w i p Hi; [discriminate|].
  cbn [process_parts]. munfold.
  destruct i as [|i].
  - injection Hi as ->. cbn [take process_parts]. munfold. cbn [snd]. rewrite Nat.add_0_r.
    destruct (process_part r inBatch index p w) as [p' w1].
    destruct (process_parts r inBatch (S index) rest w1) as [rest' w2]. reflexivity.
  - simpl in Hi. cbn [take process_parts]. munfold.
    destruct (process_part r inBatch index q w) as [q' w1].
    specialize (IH (S index) w1 i p Hi).
    destruct (process_parts r inBatch (S index) rest w1) as [rest' w2].
    destruct (process_parts r inBatch (S index) (take i rest) w1) as [pre' w3].
    cbn [fst snd] in *. rewrite <- Nat.add_succ_comm. exact IH.
Qed.

Lemma ProcessBatch_out r inBatch w :
  exists newMsg w',
    ProcessBatch r inBatch w = (([newMsg], None), w')
    /\ length newMsg = length inBatch
    /\ forall i part, inBatch !! i = Some part ->
         newMsg !! i =
           Some (let '((err, part'), _) :=
                   attempt r inBatch i part (world_before r inBatch i w) in
                 match err with
                 | Some e => SetError part (item_error r e)
                 | None => part'
                 end).
Proof.
  unfold ProcessBatch. munfold. rewrite Copy_id.
  pose proof (process_parts_length r inBatch inBatch 0%nat w) as Hlen.
  pose proof (process_parts_lookup r inBatch inBatch 0%nat w) as Hlook.
  destruct (process_parts r inBatch 0%nat inBatch w) as [newMsg w'].
  exists newMsg, w'. split; [reflexivity|]. split; [exact Hlen|].
  intros i part Hi. cbn [fst] in Hlook. rewrite (Hlook i part Hi), process_part_out.
  unfold world_before. rewrite Copy_id. cbn [Nat.add].
  pose proof (attempt_part r inBatch i part
                (process_parts r inBatch 0%nat (take i inBatch) w).2) as Hpart.
  destruct (attempt r inBatch i part _) as [[[e|] part'] w1]; [by rewrite Hpart | reflexivity].
Qed.


(** The retry budget as the code has it: after the first invocation,
    at most [retries + 1] further ones, each preceded by one delay. *)
Lemma execRaw_budget r index inBatch msg w :
  let '(_, w') := execRaw r index inBatch msg w in
  let evs := new_events w w' in
  (length (calls evs) <= Z.to_nat (retries r + 1) + 1)%nat
  /\ (length (sleeps evs) <= Z.to_nat (retries r + 1))%nat.
Proof.
  destruct (execRaw_shape r index inBatch msg w) as (err & part' & w' & -> & Hshape).
  destruct Hshape as [(-> & _) | (args & e0 & evs & Ht & Hr & Hle & _)].
  - unfold new_events. rewrite drop_all. simpl. lia.
  - rewrite (redis_new_events_app w w' _ Ht). cbn [calls sleeps List.filter is_call is_sleep length].
    fold (calls evs). fold (sleeps evs). rewrite (rounds_counts _ _ _ _ Hr). lia.
Qed.

(** *** The claims *)

(** C1, as amended.  In either mode the returned batch has the length of
    the input batch, and what it holds at index [i] is decided by the
    attempt on message [i] alone, made in the world the earlier messages
    left behind, whether they failed or not: on failure the input message
    with the item error attached, otherwise the message the attempt
    produced, with the error state it arrived with.  So a message of the
    returned batch carries an item error exactly when its handling failed
    or it already carried one on arrival. *)
Theorem per_item_isolation r inBatch w :
  let '((out, _), _) := ProcessBatch r inBatch w in
  exists newMsg, out = [newMsg]
  /\ length newMsg = length inBatch
  /\ (forall i part, inBatch !! i = Some part ->
        let '((err, part'), _) :=
          attempt r inBatch i part (world_before r inBatch i w) in
        match err with
        | Some e => newMsg !! i = Some (SetError part (item_error r e))
        | None => newMsg !! i = Some part' /\ GetError part' = GetError part
        end)
  /\ (forall i part m, inBatch !! i = Some part -> newMsg !! i = Some m ->
        (is_Some (GetError m) <-> fails_at r inBatch w i \/ is_Some (GetError part))).
Proof.
  destruct (ProcessBatch_out r inBatch w) as (newMsg & w' & -> & Hlen & Hout).
  exists newMsg. split; [reflexivity|]. split; [exact Hlen|].
  assert (forall i part, inBatch !! i = Some part ->
            let '((err, part'), _) :=
              attempt r inBatch i part (world_before r inBatch i w) in
            match err with
            | Some e => newMsg !! i = Some (SetError part (item_error r e))
            | None => newMsg !! i = Some part' /\ GetError part' = GetError part
            end) as Hidx.
  { intros i part Hi. specialize (Hout i part Hi).
    pose proof (attempt_part r inBatch i part (world_before r inBatch i w)) as Hpart.
    destruct (attempt r inBatch i part _) as [[[e|] part'] w1]; [exact Hout|].
    split; [exact Hout | apply Hpart]. }
  split; [exact Hidx|].
  intros i part m Hpart Hm.
  specialize (Hidx i part Hpart). unfold fails_at.
  destruct (attempt r inBatch i part (world_before r inBatch i w)) as [[[e|] part'] w1] eqn:Ha.
  - rewrite Hm in Hidx. injection Hidx as ->. split; [|by eexists].
    intros _. left. exists part. rewrite Ha. split; [exact Hpart | by eexists].
  - destruct Hidx as [Hidx Herr]. rewrite Hm in Hidx. injection Hidx as ->.
    rewrite Herr. split; [by right|].
    intros [(part2 & Hpart2 & Hfail) | Hold]; [|exact Hold].
    rewrite Hpart in Hpart2. injection Hpart2 as <-.
    rewrite Ha in Hfail. by destruct Hfail as [? [=]].
Qed.

(** C9.  In either mode and for every batch [ProcessBatch] returns, with
    a nil error, exactly one batch; it has the length of the input and
    holds the input messages with their metadata, each with its content
    replaced or an error attached.  Every failed attempt, be it a failed
    args mapping or a command that still fails after the last retry,
    shows as the item error of its message. *)
Theorem ProcessBatch_returns r inBatch w :
  exists newMsg w',
    ProcessBatch r inBatch w = (([newMsg], None), w')
    /\ length newMsg = length inBatch
    /\ Forall2 (fun p m => metadata m = metadata p) inBatch newMsg
    /\ (forall i part e, inBatch !! i = Some part ->
          (attempt r inBatch i part (world_before r inBatch i w)).1.1 = Some e ->
          newMsg !! i = Some (SetError part (item_error r e)))
    /\ (forall i part e, inBatch !! i = Some part ->
          operator r = None ->
          bloblang.Query (argsMapping r) i inBatch = Err e ->
          newMsg !! i = Some (SetError part ("args mapping failed: " +:+ e))).
Proof.
  destruct (ProcessBatch_out r inBatch w) as (newMsg & w' & -> & Hlen & Hout).
  exists newMsg, w'. split; [reflexivity|]. split; [exact Hlen|]. split; [|split].
  - apply Forall2_same_length_lookup_2; [by rewrite Hlen|].
    intros i part m Hpart Hm. rewrite (Hout i part Hpart) in Hm. injection Hm as <-.
    pose proof (attempt_part r inBatch i part (world_before r inBatch i w)) as Hp.
    destruct (attempt r inBatch i part _) as [[[e|] part'] w1]; [reflexivity | apply Hp].
  - intros i part e Hpart Hfail. rewrite (Hout i part Hpart).
    destruct (attempt r inBatch i part _) as [[err part'] w1]. simpl in Hfail.
    by rewrite Hfail.
  - intros i part e Hpart Hop Hq. rewrite (Hout i part Hpart).
    unfold attempt, item_error, execRaw. rewrite Hop, Hq. reflexivity.
Qed.

End Props.

(** *** The claims on concrete inputs *)

Lemma per_item_isolation_witness :
  let r := demo.proc_cmd 1 in
  let old := mkPart (Raw "7") ∅ (Some "old failure") in
  let inBatch := [demo.part "10"; demo.part EmptyString; old; demo.part "-2"] in
  let w := demo.world 1 None in
  let '((out, _), _) := ProcessBatch r inBatch w in
  exists newMsg, out = [newMsg]
  /\ length newMsg = 4%nat
  /\ (forall i part m, inBatch !! i = Some part -> newMsg !! i = Some m ->
        (is_Some (GetError m) <-> fails_at r inBatch w i \/ is_Some (GetError part))).
Proof.
  intros r old inBatch w.
  pose proof (per_item_isolation r inBatch w) as W.
  destruct (ProcessBatch r inBatch w) as [[out e] w'].
  destruct W as (newMsg & -> & Hlen & _ & Hexact).
  exists newMsg. split; [reflexivity|]. split; [exact Hlen | exact Hexact].
Defined.

(** C1 as stated fails: a message that arrives with an item error and is
    handled successfully still carries that error in the returned batch,
    though its handling did not fail. *)
Lemma exactly_failing_counterexample :
  ~ redis_cost.exactly_failing (demo.proc_cmd 1)
      [mkPart (Raw "7") ∅ (Some "old failure")] (demo.world 0 None).
Proof.
  unfold redis_cost.exactly_failing.
  destruct (ProcessBatch _ _ _) as [[out e] w'] eqn:E. vm_compute in E.
  injection E as <- _ _.
  intros (newMsg & [= <-] & _ & Hiff).
  destruct (Hiff 0%nat _ eq_refl) as [Hfails _].
  destruct Hfails as (part & Hpart & Hfail); [by eexists|].
  injection Hpart as <-. vm_compute in Hfail. by destruct Hfail as [? [=]].
Qed.

Lemma ProcessBatch_returns_witness :
  let r := demo.proc_op opIncrBy 0 in
  let inBatch := [demo.part "10"; demo.part "x"; demo.part "-2"] in
  let w := demo.world 0 None in
  exists newMsg w',
    ProcessBatch r inBatch w = (([newMsg], None), w')
    /\ length newMsg = 3%nat
    /\ newMsg !! 1%nat =
         Some (SetError (demo.part "x")
                 "redis operator failed: strconv.Atoi: parsing x: invalid syntax").
Proof.
  intros r inBatch w.
  destruct (ProcessBatch_returns r inBatch w) as (newMsg & w' & E & Hlen & _ & Hfail & _).
  exists newMsg, w'. split; [exact E|]. split; [exact Hlen|].
  apply (Hfail 1%nat (demo.part "x") "strconv.Atoi: parsing x: invalid syntax"); reflexivity.
Defined.

(** C3 fails on the code: with [retries = 3] and a store that keeps
    failing, [execRaw] invokes the command 5 times and sleeps 4 times, one
    more of each than the budget of 4 invocations and 3 delays; the
    operators loop in the same way. *)
Theorem retries_exceed_budget :
  let r := demo.proc_cmd 3 in
  let msg := demo.part "10" in
  let w := demo.world 10 None in
  let '((err, _), w') := execRaw r 0%nat [msg] msg w in
  let '((err_op, _), w_op) := run_operator opIncrBy (demo.proc_op opIncrBy 3) "ash" msg w in
  retries r = 3
  /\ err = Some "connection refused"
  /\ length (calls (new_events w w')) = 5%nat
  /\ length (sleeps (new_events w w')) = 4%nat
  /\ ~ within_budget r 0%nat [msg] msg w
  /\ err_op = Some "connection refused"
  /\ length (calls (new_events w w_op)) = 5%nat
  /\ length (sleeps (new_events w w_op)) = 4%nat.
Proof.
  cbv zeta. unfold within_budget.
  destruct (execRaw _ _ _ _ _) as [[err p] w'] eqn:E. vm_compute in E. injection E as <- <- <-.
  destruct (run_operator _ _ _ _ _) as [[err_op p_op] w_op] eqn:Eop.
  vm_compute in Eop. injection Eop as <- <- <-.
  repeat split; try reflexivity.
  intros [Hcalls _]. vm_compute in Hcalls. by apply Hcalls.
Qed.

(** C4 as stated fails: with no retries configured and the context
    cancelled during the only delay, the command is invoked again. *)
Lemma cancel_aborts_counterexample :
  ~ cancel_aborts (demo.proc_cmd 0) 0%nat [demo.part "10"] (demo.part "10")
      (demo.world 10 (Some 100)).
Proof.
  unfold cancel_aborts.
  destruct (execRaw _ _ _ _ _) as [[err p] w'] eqn:E. vm_compute in E. injection E as <- <- <-.
  cbv zeta. intros Habort.
  destruct Habort as [Hcalls _]; [vm_compute; tauto|].
  vm_compute in Hcalls. discriminate Hcalls.
Qed.

End RedisProc.

(** * Further properties of the cache output *)

Module CacheDispatch.
Import cache output_cache cache_obs cache_trace CacheSink.

Lemma resolved_keys_entries `{GoStd} (c : CacheWriter) (msg : message.Batch) :
  (entries c msg).*1 = resolved_keys c msg.
Proof.
  unfold entries, resolved_keys. apply list_eq. intros i.
  rewrite list_lookup_fmap, !list_lookup_imap. by destruct (msg !! i).
Qed.

Section Props.
Context `{GoStd} {C : Type} `{V1 C}.

(** Iteration up to the first TTL that does not parse: the entries before
it are collected, every non-empty TTL up to and including it is parsed
once, and the parse error is reported. *)
Lemma IterFrom_first_bad c msg parts : forall i items tr l,
  (l < length parts)%nat ->
  ttl_ok c msg (i + l) = false ->
  (forall l', (l' < l)%nat -> ttl_ok c msg (i + l') = true) ->
  exists terr items',
    ParseDuration (field.Resolve (ttl c) (i + l) msg) = Err terr
    /\ message.IterFrom (writeMulti_item c msg) i parts (items, tr)
       = (Some ("ttl field: " +:+ terr),
          (items', tr ++ ttl_parses c msg i (S l)
                      ++ [EvDebugf "Invalid duration string for TTL field: %v\n" terr])).
Proof.
  induction parts as [|p rest IH]; intros i items tr l Hl Hbad Hbefore; simpl in Hl; [lia|].
  cbn [message.IterFrom]. destruct l as [|l].
  - rewrite Nat.add_0_r in Hbad.
    destruct (ttl_ok_false_inv c msg i Hbad) as (Hne & terr & Hp).
    exists terr, items. rewrite Nat.add_0_r. split; [exact Hp|].
    unfold writeMulti_item, ttl_parses, ttl_parse. cbn [seq flat_map].
    destruct (decide _) as [_|]; [|contradiction].
    rewrite Hp, app_nil_r, <- app_assoc. reflexivity.
  - assert (ttl_ok c msg i = true) as Hi.
    { rewrite <- (Nat.add_0_r i). apply Hbefore. lia. }
    destruct (IH (S i) (put items (entry c msg i p)) (tr ++ ttl_parse c msg i) l)
      as (terr & items' & Hp & Hiter).
    { lia. }
    { by rewrite Nat.add_succ_comm. }
    { intros l' Hl'. rewrite Nat.add_succ_comm. apply Hbefore. lia. }
    exists terr, items'. rewrite <- Nat.add_succ_comm. split; [exact Hp|].
    assert (writeMulti_item c msg i p (items, tr)
            = (None, (put items (entry c msg i p), tr ++ ttl_parse c msg i))) as ->.
    { unfold ttl_ok in Hi. unfold writeMulti_item, entry, ttl_of, put, ttl_parse.
      destruct (decide _) as [Hne|He]; [|by rewrite app_nil_r].
      by destruct (ParseDuration _). }
    rewrite Hiter. do 2 f_equal.
    change (ttl_parses c msg i (S (S l))) with (ttl_parse c msg i ++ ttl_parses c msg (S i) (S l)).
    by rewrite <- !app_assoc.
Qed.

(** X3.  In the multi-item path the dispatch stops at the first message, in
batch order, whose TTL does not parse: the error it returns wraps the parse
error of that message; the only things done are the lookup of the target,
one parse for each non-empty TTL up to and including that message, and one
debug line; no TTL of a later message is parsed. *)
Theorem multi_first_failure c msg mgr ac l :
  (1 < length msg)%nat ->
  caches mgr !! Target (conf c) = Some ac ->
  first_bad_ttl c msg l ->
  exists terr,
    ParseDuration (field.Resolve (ttl c) l msg) = Err terr
    /\ let '(err, _, mgr') := WriteWithContext c msg mgr in
       err = Some ("ttl field: " +:+ terr)
       /\ new_events mgr mgr' =
            EvAccessCache (Target (conf c)) :: ttl_parses c msg 0 (S l)
            ++ [EvDebugf "Invalid duration string for TTL field: %v\n" terr].
Proof.
  intros Hlen Hc (Hl & Hbad & Hbefore).
  rewrite (WriteWithContext_multi c msg mgr Hlen).
  unfold writeMulti, AccessCache, message.Iter. cbn [emit caches trace NewField]. rewrite Hc.
  destruct (IterFrom_first_bad c msg msg 0%nat ∅
              (trace mgr ++ [EvAccessCache (Target (conf c))]) l Hl Hbad Hbefore)
    as (terr & items' & Hp & ->).
  exists terr. split; [exact Hp|]. split; [reflexivity|].
  apply cache_new_events_app. cbn [trace]. by rewrite <- !app_assoc.
Qed.


(** Every dispatch ends in one of three ways: an error before any write,
one [Set] (batches of at most one message), or one [SetMulti] (larger
batches); in the last two the result and the new state of the target are
those of the call. *)
Lemma dispatch_cases c msg mgr :
  exists err mgr' evs,
    WriteWithContext c msg mgr = (err, msg, mgr')
    /\ trace mgr' = trace mgr ++ evs
    /\ ((is_Some err /\ writes evs = [] /\ caches mgr' = caches mgr)
        \/ ((length msg <= 1)%nat /\ exists ac k v t,
              caches mgr !! Target (conf c) = Some ac
              /\ writes evs = [EvSet (Target (conf c)) k v t]
              /\ err = (V1_Set ac k v t).1
              /\ caches mgr' = <[Target (conf c) := (V1_Set ac k v t).2]> (caches mgr))
        \/ ((1 < length msg)%nat /\ exists ac,
              caches mgr !! Target (conf c) = Some ac
              /\ writes evs = [EvSetMulti (Target (conf c)) (mapping c msg)]
              /\ err = (V1_SetMulti ac (mapping c msg)).1
              /\ caches mgr' =
                   <[Target (conf c) := (V1_SetMulti ac (mapping c msg)).2]> (caches mgr))).
Proof.
  destruct (caches mgr !! Target (conf c)) as [ac|] eqn:Hc.
  - destruct (decide (1 < length msg)%nat) as [Hlen|Hlen].
    + rewrite (WriteWithContext_multi c msg mgr Hlen).
      destruct (all_ttls_ok c msg) eqn:Hall.
      * destruct (writeMulti_ok c msg mgr ac Hc Hall) as (mgr' & evs & -> & Ht & Hw & _ & Hcs).
        eexists _, mgr', evs. split; [reflexivity|]. split; [exact Ht|].
        right; right. split; [exact Hlen|]. by exists ac.
      * destruct (all_ttls_ok_false c msg Hall) as (l & Hl & Hbad).
        destruct (writeMulti_fail c msg mgr l Hl Hbad) as (e & mgr' & evs & -> & Ht & Hw & _ & Hcs).
        eexists _, mgr', evs. split; [reflexivity|]. split; [exact Ht|].
        left. by split; [eexists|].
    + destruct (ttl_ok c msg 0%nat) eqn:Hok.
      * destruct (WriteWithContext_single_ok c msg mgr ac ltac:(lia) Hc Hok)
          as (mgr' & evs & -> & Ht & Hloc & _ & Hcs).
        eexists _, mgr', _. split; [reflexivity|]. split; [exact Ht|].
        right; left. split; [lia|]. eexists ac, _, _, _. split; [reflexivity|].
        split; [|by split].
        rewrite !writes_app, (writes_local evs Hloc). reflexivity.
      * destruct (ttl_ok_false_inv c msg 0%nat Hok) as (Hne & terr & Hp).
        destruct (WriteWithContext_single_fail c msg mgr terr ltac:(lia) Hne Hp)
          as (e & mgr' & evs & -> & _ & Ht & Hw & _ & Hcs).
        eexists _, mgr', evs. split; [reflexivity|]. split; [exact Ht|].
        left. by split; [eexists|].
  - destruct (dispatch_cache_missing c msg mgr Hc) as (e & ->).
    eexists _, _, [EvAccessCache (Target (conf c))]. split; [reflexivity|].
    split; [reflexivity|]. left. by split; [eexists|].
Qed.

(** X1.  Whatever the batch, the templates and the state of the registry, a
dispatch makes at most one write call; it is a [Set] on the target only for
a batch of at most one message and a [SetMulti] on the target only for a
larger one; and a dispatch that returns no error has made exactly one. *)
Theorem dispatch_one_write c msg mgr :
  let '(err, _, mgr') := WriteWithContext c msg mgr in
  let ws := writes (new_events mgr mgr') in
  (length ws <= 1)%nat
  /\ (err = None -> length ws = 1%nat)
  /\ (forall n k v t, In (EvSet n k v t) ws -> (length msg <= 1)%nat /\ n = Target (conf c))
  /\ (forall n items, In (EvSetMulti n items) ws ->
        (1 < length msg)%nat /\ n = Target (conf c) /\ items = mapping c msg).
Proof.
  destruct (dispatch_cases c msg mgr) as (err & mgr' & evs & -> & Ht & Hcase).
  rewrite (cache_new_events_app mgr mgr' evs Ht). cbv zeta.
  destruct Hcase as [([e ->] & -> & _) | [(Hlen & ac & k & v & t & _ & -> & _) | (Hlen & ac & _ & -> & _)]].
  - repeat split; try done; simpl; lia.
  - split; [simpl; lia|]. split; [reflexivity|]. split.
    + intros n k' v' t' [[= <- _ _ _]|[]]. by split.
    + intros n items [[=]|[]].
  - split; [simpl; lia|]. split; [reflexivity|]. split.
    + intros n k v t [[=]|[]].
    + intros n items [[= <- <-]|[]]. by split.
Qed.

(** X2.  When the target resource is not registered at dispatch time the
dispatch looks it up, returns an error and does nothing else: no template
is resolved into a parse, nothing is written, no resource changes. *)
Theorem dispatch_target_missing c msg mgr :
  caches mgr !! Target (conf c) = None ->
  let '(err, msg', mgr') := WriteWithContext c msg mgr in
  is_Some err
  /\ new_events mgr mgr' = [EvAccessCache (Target (conf c))]
  /\ caches mgr' = caches mgr
  /\ msg' = msg.
Proof.
  intros Hc. destruct (dispatch_cache_missing c msg mgr Hc) as (e & ->).
  split; [by eexists|]. split; [|by split].
  by apply cache_new_events_app.
Qed.

(** X8.  A dispatch can only change the state of its target resource: it
neither adds nor removes a resource, and every other resource is left as it
was. *)
Theorem dispatch_touches_target_only c msg mgr :
  let mgr' := (WriteWithContext c msg mgr).2 in
  dom (caches mgr') = dom (caches mgr)
  /\ forall name, name ≠ Target (conf c) -> caches mgr' !! name = caches mgr !! name.
Proof.
  destruct (dispatch_cases c msg mgr) as (err & mgr' & evs & -> & _ & Hcase). cbn [snd].
  destruct Hcase as [(_ & _ & ->) | [(_ & ac & k & v & t & Hc & _ & _ & ->) | (_ & ac & Hc & _ & _ & ->)]].
  - by split.
  - split; [|by intros name Hne; rewrite lookup_insert_ne].
    rewrite dom_insert_L. apply (elem_of_dom_2 (caches mgr)) in Hc. set_solver.
  - split; [|by intros name Hne; rewrite lookup_insert_ne].
    rewrite dom_insert_L. apply (elem_of_dom_2 (caches mgr)) in Hc. set_solver.
Qed.

(** X6.  A single message whose resolved TTL is non-empty and parses: the
dispatch looks the target up, parses the TTL once and makes one [Set] of
the resolved key and the payload with exactly the parsed duration; the
result is that of the [Set]. *)
Theorem single_ttl_passed c p mgr ac t :
  caches mgr !! Target (conf c) = Some ac ->
  field.Resolve (ttl c) 0%nat [p] ≠ EmptyString ->
  ParseDuration (field.Resolve (ttl c) 0%nat [p]) = Ok t ->
  let name := Target (conf c) in
  let k := field.Resolve (key c) 0%nat [p] in
  let v := message.Get p in
  let '(err, _, mgr') := WriteWithContext c [p] mgr in
  new_events mgr mgr' =
    [EvAccessCache name; EvParseDuration (field.Resolve (ttl c) 0%nat [p]);
     EvSet name k v (Some t)]
  /\ err = (V1_Set ac k v (Some t)).1
  /\ caches mgr' = <[name := (V1_Set ac k v (Some t)).2]> (caches mgr).
Proof.
  intros Hc Hne Hp name k v. unfold WriteWithContext, message.Len, AccessCache.
  cbn [length emit caches trace NewField]. destruct (decide (1 < 1)%nat); [lia|]. rewrite Hc.
  destruct (decide _) as [_|]; [|contradiction]. rewrite Hp.
  change (message.BatchGet [p] 0) with p. fold name k v.
  destruct (V1_Set ac k v (Some t)) as [serr ac']. cbn [fst snd].
  split; [|by split]. apply cache_new_events_app. cbn [trace]. by rewrite <- !app_assoc.
Qed.

(** X4.  In the multi-item path, when the messages resolve to pairwise
different keys (and every TTL is empty or parses), [SetMulti] receives one
entry per message: the mapping has as many entries as the batch has
messages, and under the key of each message it holds that message's
payload and optional TTL. *)
Theorem multi_distinct_keys c msg mgr ac :
  (1 < length msg)%nat ->
  caches mgr !! Target (conf c) = Some ac ->
  all_ttls_ok c msg = true ->
  NoDup (resolved_keys c msg) ->
  let items := mapping c msg in
  let '(err, _, mgr') := WriteWithContext c msg mgr in
  writes (new_events mgr mgr') = [EvSetMulti (Target (conf c)) items]
  /\ size items = length msg
  /\ forall i p, msg !! i = Some p ->
       items !! field.Resolve (key c) i msg = Some (mkTTLItem (message.Get p) (ttl_of c msg i)).
Proof.
  intros Hlen Hc Hall Hnd items.
  rewrite (WriteWithContext_multi c msg mgr Hlen).
  destruct (writeMulti_ok c msg mgr ac Hc Hall) as (mgr' & evs & -> & Ht & Hw & _).
  rewrite (cache_new_events_app mgr mgr' evs Ht). split; [exact Hw|]. split.
  - rewrite <- size_dom. unfold items, mapping.
    rewrite foldl_put_dom, dom_empty_L, (left_id_L ∅ (∪)), resolved_keys_entries.
    rewrite (size_list_to_set _ Hnd). unfold resolved_keys. by rewrite length_imap.
  - intros i p Hi. unfold items, mapping.
    apply (foldl_put_lookup_last (entries c msg) ∅ i).
    + unfold entries. rewrite list_lookup_imap, Hi. reflexivity.
    + intros l' e Hl' He Heq.
      assert (resolved_keys c msg !! l' = Some (field.Resolve (key c) i msg)) as Hk'.
      { rewrite <- resolved_keys_entries, list_lookup_fmap, He. simpl. by rewrite Heq. }
      assert (resolved_keys c msg !! i = Some (field.Resolve (key c) i msg)) as Hk.
      { unfold resolved_keys. rewrite list_lookup_imap, Hi. reflexivity. }
      pose proof (NoDup_lookup _ _ _ _ Hnd Hk Hk'). lia.
Qed.

(** X5.  Whenever the multi-item path reaches [SetMulti] (every TTL empty
or parsable), the keys of the mapping it sends are exactly the resolved keys
of the batch, the mapping is never larger than the batch, and each of its
entries is the key, payload and optional TTL of some message of the batch:
nothing is sent that no message produced. *)
Theorem multi_key_set c msg mgr ac :
  (1 < length msg)%nat ->
  caches mgr !! Target (conf c) = Some ac ->
  all_ttls_ok c msg = true ->
  let items := mapping c msg in
  let '(_, _, mgr') := WriteWithContext c msg mgr in
  writes (new_events mgr mgr') = [EvSetMulti (Target (conf c)) items]
  /\ dom items = list_to_set (resolved_keys c msg)
  /\ (size items <= length msg)%nat
  /\ forall k it, items !! k = Some it ->
       exists i p, msg !! i = Some p
         /\ k = field.Resolve (key c) i msg
         /\ it = mkTTLItem (message.Get p) (ttl_of c msg i).
Proof.
  intros Hlen Hc Hall items.
  rewrite (WriteWithContext_multi c msg mgr Hlen).
  destruct (writeMulti_ok c msg mgr ac Hc Hall) as (mgr' & evs & -> & Ht & Hw & _).
  rewrite (cache_new_events_app mgr mgr' evs Ht). split; [exact Hw|].
  assert (dom items = list_to_set (resolved_keys c msg)) as Hdom.
  { unfold items, mapping.
    by rewrite foldl_put_dom, dom_empty_L, (left_id_L ∅ (∪)), resolved_keys_entries. }
  split; [exact Hdom|]. split.
  - rewrite <- size_dom, Hdom.
    replace (length msg) with (length (resolved_keys c msg))
      by (unfold resolved_keys; by rewrite length_imap).
    apply size_list_to_set_le.
  - intros k it Hk.
    destruct (foldl_put_lookup_origin (entries c msg) k it Hk) as (l & Hl & _).
    unfold entries in Hl. rewrite list_lookup_imap in Hl.
    destruct (msg !! l) as [p|] eqn:Hp; [|discriminate].
    injection Hl as <- <-. by exists l, p.
Qed.

(** X7.  The checks of construction run in a fixed order and stop at the
first failure: a malformed key template is reported as such whatever the
ttl template and the registry are, and then the ttl template is not
compiled and the registry not asked; a malformed ttl template is reported
before the registry is asked; a missing target is reported last, naming the
target.  Construction never changes a resource. *)
Theorem NewCacheWriter_error_order (cf : CacheConfig) (mgr : NewManagement C) :
  let '(res, mgr') := NewCacheWriter cf mgr in
  caches mgr' = caches mgr
  /\ (forall e, NewField mgr (Key cf) = Err e ->
        res = Err ("failed to parse key expression: " +:+ e)
        /\ new_events mgr mgr' = [EvNewField (Key cf)])
  /\ (forall k e, NewField mgr (Key cf) = Ok k -> NewField mgr (TTL cf) = Err e ->
        res = Err ("failed to parse ttl expression: " +:+ e)
        /\ new_events mgr mgr' = [EvNewField (Key cf); EvNewField (TTL cf)])
  /\ (forall k t, NewField mgr (Key cf) = Ok k -> NewField mgr (TTL cf) = Ok t ->
        caches mgr !! Target cf = None ->
        res = Err ("cache resource '" +:+ Target cf +:+ "' was not found")
        /\ new_events mgr mgr' =
             [EvNewField (Key cf); EvNewField (TTL cf); EvProbeCache (Target cf)]).
Proof.
  unfold NewCacheWriter, compileField, ProbeCache, new_events, emit.
  cbn [NewField caches trace].
  destruct (NewField mgr (Key cf)) as [k|e1] eqn:Hk.
  2:{ cbn [caches trace]. split; [reflexivity|]. split; [|split].
      - intros e [= <-]. by rewrite drop_app_length.
      - intros ? ? [=].
      - intros ? ? [=]. }
  destruct (NewField mgr (TTL cf)) as [t|e2] eqn:Ht.
  2:{ cbn [caches trace]. split; [reflexivity|]. split; [|split].
      - intros ? [=].
      - intros ? e _ [= <-]. by rewrite <- !app_assoc, drop_app_length.
      - intros ? ? _ [=]. }
  destruct (caches mgr !! Target cf) as [ac|] eqn:Hc.
  - rewrite bool_decide_true by eauto. cbn [negb caches trace].
    split; [reflexivity|]. split; [|split]; [intros ? [=] | intros ? ? _ [=] | intros ? ? _ _ [=]].
  - rewrite bool_decide_false by (intros [? ?]; discriminate). cbn [negb caches trace].
    split; [reflexivity|]. split; [|split]; [intros ? [=] | intros ? ? _ [=] |].
    intros ? ? _ _ _. by rewrite <- !app_assoc, drop_app_length.
Qed.

End Props.

(** *** The properties on concrete inputs *)

Lemma multi_first_failure_witness :
  let msg := [demo.part_ttl "x1" "60s"; demo.part_ttl "x2" "soon"; demo.part_ttl "x3" "later"] in
  exists terr,
    ParseDuration (field.Resolve (ttl demo.writer) 1%nat msg) = Err terr
    /\ let '(err, _, mgr') := WriteWithContext demo.writer msg demo.mgr in
       err = Some ("ttl field: " +:+ terr)
       /\ new_events demo.mgr mgr' =
            EvAccessCache (Target (conf demo.writer)) :: ttl_parses demo.writer msg 0 2
            ++ [EvDebugf "Invalid duration string for TTL field: %v\n" terr].
Proof.
  intros msg.
  apply (multi_first_failure demo.writer msg demo.mgr ∅ 1%nat); [simpl; lia | reflexivity |].
  split; [simpl; lia|]. split; [reflexivity|].
  intros l' Hl'. destruct l' as [|l']; [reflexivity | lia].
Defined.

Lemma dispatch_one_write_witness :
  let '(err, _, mgr') := WriteWithContext demo.writer [demo.part "x1"] demo.mgr in
  err = None /\ length (writes (new_events demo.mgr mgr')) = 1%nat.
Proof.
  pose proof (dispatch_one_write demo.writer [demo.part "x1"] demo.mgr) as W.
  destruct (WriteWithContext demo.writer [demo.part "x1"] demo.mgr) as [[err msg'] mgr'] eqn:E.
  assert (err = None) as Herr by (vm_compute in E; by injection E as <- _ _).
  split; [exact Herr|]. by apply W.
Defined.

Lemma dispatch_target_missing_witness :
  let mgr : NewManagement (gmap string TTLItem) := mkMgr demo.new_field ∅ [] in
  let msg := [demo.part "x1"; demo.part "x2"] in
  let '(err, msg', mgr') := WriteWithContext demo.writer msg mgr in
  is_Some err
  /\ new_events mgr mgr' = [EvAccessCache (Target (conf demo.writer))]
  /\ caches mgr' = caches mgr
  /\ msg' = msg.
Proof.
  intros mgr msg. exact (dispatch_target_missing demo.writer msg mgr eq_refl).
Defined.

Lemma dispatch_touches_target_only_witness :
  let mgr : NewManagement (gmap string TTLItem) :=
    mkMgr demo.new_field (<[ "bar" := ∅ ]> (caches demo.mgr)) [] in
  let mgr' := (WriteWithContext demo.writer [demo.part "x1"] mgr).2 in
  caches mgr' !! "bar" = Some ∅.
Proof.
  intros mgr mgr'.
  destruct (dispatch_touches_target_only demo.writer [demo.part "x1"] mgr) as (_ & Hother).
  fold mgr' in Hother. rewrite (Hother "bar"); [reflexivity | discriminate].
Defined.

Lemma single_ttl_passed_witness :
  let p := demo.part_ttl "x1" "60s" in
  let '(err, _, mgr') := WriteWithContext demo.writer [p] demo.mgr in
  new_events demo.mgr mgr' =
    [EvAccessCache (Target (conf demo.writer));
     EvParseDuration (field.Resolve (ttl demo.writer) 0%nat [p]);
     EvSet (Target (conf demo.writer)) (field.Resolve (key demo.writer) 0%nat [p])
       (message.Get p) (Some 60000000000)]
  /\ err = (V1_Set (∅ : gmap string TTLItem) (field.Resolve (key demo.writer) 0%nat [p])
              (message.Get p) (Some 60000000000)).1
  /\ caches mgr' =
       <[Target (conf demo.writer) :=
           (V1_Set (∅ : gmap string TTLItem) (field.Resolve (key demo.writer) 0%nat [p])
              (message.Get p) (Some 60000000000)).2]> (caches demo.mgr).
Proof.
  intros p.
  exact (single_ttl_passed demo.writer p demo.mgr ∅ 60000000000 eq_refl
           ltac:(discriminate) eq_refl).
Defined.

Lemma multi_distinct_keys_witness :
  let c := demo.writer in
  let msg := [demo.part "a"; demo.part_ttl "b" "60s"] in
  let items := mapping c msg in
  let '(err, _, mgr') := WriteWithContext c msg demo.mgr in
  writes (new_events demo.mgr mgr') = [EvSetMulti (Target (conf c)) items]
  /\ size items = length msg
  /\ forall i p, msg !! i = Some p ->
       items !! field.Resolve (key c) i msg = Some (mkTTLItem (message.Get p) (ttl_of c msg i)).
Proof.
  intros c msg.
  refine (multi_distinct_keys c msg demo.mgr ∅ _ eq_refl eq_refl _); [simpl; lia|].
  apply (bool_decide_unpack _). by vm_compute.
Defined.

Lemma multi_key_set_witness :
  let c := demo.writer in
  let msg := [demo.part "a"; demo.part "b"; demo.part_ttl "a" "60s"] in
  let items := mapping c msg in
  let '(_, _, mgr') := WriteWithContext c msg demo.mgr in
  writes (new_events demo.mgr mgr') = [EvSetMulti (Target (conf c)) items]
  /\ dom items = list_to_set (resolved_keys c msg)
  /\ (size items <= length msg)%nat
  /\ forall k it, items !! k = Some it ->
       exists i p, msg !! i = Some p
         /\ k = field.Resolve (key c) i msg
         /\ it = mkTTLItem (message.Get p) (ttl_of c msg i).
Proof.
  intros c msg.
  refine (multi_key_set c msg demo.mgr ∅ _ eq_refl eq_refl). simpl; lia.
Defined.

Lemma NewCacheWriter_error_order_witness :
  let cf := mkCacheConfig "bar" "${!oops" "${!oops" 1 in
  (NewCacheWriter cf demo.mgr).1
  = Err "failed to parse key expression: unrecognised interpolation in ${!oops".
Proof.
  intros cf. pose proof (NewCacheWriter_error_order cf demo.mgr) as W.
  destruct (NewCacheWriter cf demo.mgr) as [res mgr'].
  destruct W as (_ & Hkey & _).
  exact (proj1 (Hkey "unrecognised interpolation in ${!oops" eq_refl)).
Defined.

End CacheDispatch.

(** * Further properties of the redis processor *)

Module RedisRetry.
Import message redis redis_obs redis_cost RedisProc.

Lemma errorfs_app (tr1 tr2 : list Event) : errorfs (tr1 ++ tr2) = errorfs tr1 ++ errorfs tr2.
Proof. apply List.filter_app. Qed.

Lemma uncancelled_app (tr1 tr2 : list Event) :
  uncancelled (tr1 ++ tr2) = uncancelled tr1 ++ uncancelled tr2.
Proof. apply List.filter_app. Qed.

Lemma outcomes_app (tr1 tr2 : list Event) : outcomes (tr1 ++ tr2) = outcomes tr1 ++ outcomes tr2.
Proof. apply flat_map_app. Qed.

Lemma commands_app (tr1 tr2 : list Event) : commands (tr1 ++ tr2) = commands tr1 ++ commands tr2.
Proof. apply flat_map_app. Qed.

(** *** More on the rounds of the retry loop *)

Lemma rounds_errorfs cmd e0 evs e2 :
  rounds cmd e0 evs e2 -> length (errorfs evs) = length (calls evs).
Proof.
  induction 1 as [e|err fmt args d cxl e1 evs e2 Hcxl _ IH]; [reflexivity|].
  destruct Hcxl as [-> | ->]; simpl; by rewrite IH.
Qed.

(** Every invocation is of the same command. *)
Lemma rounds_commands cmd e0 evs e2 :
  rounds cmd e0 evs e2 -> commands evs = replicate (length (calls evs)) cmd.
Proof.
  induction 1 as [e|err fmt args d cxl e1 evs e2 Hcxl _ IH]; [reflexivity|].
  destruct Hcxl as [-> | ->]; simpl; by rewrite IH.
Qed.

(** Every invocation but the last failed, and the last one gives the
result. *)
Lemma rounds_outcomes cmd e0 evs e2 :
  rounds cmd e0 evs e2 ->
  exists errs : list error, e0 :: outcomes evs = (Some <$> errs) ++ [e2].
Proof.
  induction 1 as [e|err fmt args d cxl e1 evs e2 Hcxl _ IH].
  - by exists [].
  - destruct IH as (errs & IH). exists (err :: errs).
    destruct Hcxl as [-> | ->]; simpl; by rewrite IH.
Qed.

Section Props.
Context `{GoStd} {C : Type} `{UniversalClient C}.

(** The clock of the retry loop: it advances by one period per delay, and
the context is left alone. *)
Lemma retry_loop_clock {A} (cmd : Cmd) (again : M C (result A)) :
  invokes cmd again ->
  forall iters d fmt args res w,
  exists evs,
    trace (retry_loop iters d fmt args again res w).2 = trace w ++ evs
    /\ cancel_at (retry_loop iters d fmt args again res w).2 = cancel_at w
    /\ now (retry_loop iters d fmt args again res w).2
       = now w + Z.of_nat (length (sleeps evs)) * Z.max 0 d.
Proof.
  intros Hinv iters d fmt args. induction iters as [|i iters IH]; intros res w.
  - exists []. rewrite app_nil_r. simpl. repeat split; lia.
  - destruct res as [a|err].
    + exists []. rewrite app_nil_r. simpl. repeat split; lia.
    + cbn [retry_loop]. munfold. unfold Errorf, emit, Sleep. cbn [client now cancel_at trace].
      set (cxl := if match cancel_at w with
                     | Some c => bool_decide (now w < c <= now w + Z.max 0 d)
                     | None => false
                     end then [EvCancelled] else []).
      match goal with |- context [again ?W] => destruct (Hinv W) as (res1 & cl & ->) end.
      cbn [client now cancel_at trace].
      match goal with |- context [retry_loop iters d fmt args again res1 ?W] =>
        destruct (IH res1 W) as (evs & Ht & Hc & Hn) end.
      cbn [trace now cancel_at] in Ht, Hc, Hn.
      assert (cxl = [] \/ cxl = [EvCancelled]) as Hcxl.
      { subst cxl. destruct (match cancel_at w with Some _ => _ | None => _ end); auto. }
      exists (EvErrorf fmt (args ++ [err]) :: EvSleep d :: cxl ++ EvCall cmd (err_of res1) :: evs).
      split; [|split; [exact Hc|]].
      * rewrite Ht. rewrite <- !app_assoc. simpl. by rewrite <- ?app_assoc.
      * rewrite Hn.
        assert (sleeps (EvErrorf fmt (args ++ [err]) :: EvSleep d :: cxl ++ EvCall cmd (err_of res1) :: evs)
                = EvSleep d :: sleeps evs) as ->.
        { destruct Hcxl as [-> | ->]; reflexivity. }
        cbn [length]. lia.
Qed.

(** A first invocation followed by the retry loop, as all four operators
and [execRaw] have it. *)
Lemma first_then_retry {A} (cmd : Cmd) (act : M C (result A)) r fmt args w :
  invokes cmd act ->
  exists res0 w1, act w = (res0, w1)
    /\ exists res' w' evs,
         retry r fmt args act res0 w1 = (res', w')
         /\ trace w' = trace w ++ EvCall cmd (err_of res0) :: evs
         /\ rounds cmd (err_of res0) evs (err_of res')
         /\ (length (calls evs) <= max_rounds r)%nat
         /\ (is_err res' = true -> length (calls evs) = max_rounds r)
         /\ cancel_at w' = cancel_at w
         /\ now w' = now w + Z.of_nat (length (sleeps evs)) * Z.max 0 (retryPeriod r).
Proof.
  intros Hinv. destruct (Hinv w) as (res0 & cl & Hact).
  eexists res0, _. split; [exact Hact|].
  match goal with |- context [retry r fmt args act res0 ?W] => set (w1 := W) end.
  destruct (retry_rounds cmd act r fmt args res0 w1 Hinv)
    as (res' & w' & evs & E & Ht & Hr & Hle & Herr & _).
  destruct (retry_loop_clock cmd act Hinv (seqZ 0 (retries r + 1)) (retryPeriod r) fmt args res0 w1)
    as (evs2 & Ht2 & Hc2 & Hn2).
  fold (retry r fmt args act res0 w1) in Ht2, Hc2, Hn2. rewrite E in Ht2, Hc2, Hn2.
  cbn [snd] in Ht2, Hc2, Hn2.
  assert (evs2 = evs) as -> by (rewrite Ht in Ht2; by apply app_inv_head in Ht2).
  exists res', w', evs. split; [exact E|].
  split; [by rewrite Ht; subst w1; cbn [trace]; rewrite <- app_assoc|].
  split; [exact Hr|]. split; [exact Hle|].
  split; [by intros Hres; apply Herr|]. by split.
Qed.



(** *** The shape of one attempt *)

Lemma first_then_retry_retried {A} (cmd : Cmd) (act : M C (result A)) r fmt args w part
    (k : A -> Part) :
  invokes cmd act ->
  exists res0 w1, act w = (res0, w1)
    /\ exists res' w',
         retry r fmt args act res0 w1 = (res', w')
         /\ retried r cmd part w
              (match res' with
               | Err err => (Some err, part)
               | Ok res => (None, k res)
               end, w').
Proof.
  intros Hinv.
  destruct (first_then_retry cmd act r fmt args w Hinv)
    as (res0 & w1 & E1 & res' & w' & evs & E2 & Ht & Hr & Hle & Herr & Hc & Hn).
  exists res0, w1. split; [exact E1|]. exists res', w'. split; [exact E2|].
  unfold retried. destruct res' as [res|err].
  - split; [exact Hc|]. split; [by intros [? [=]]|].
    exists (err_of res0), evs. split; [exact Ht|]. split; [exact Hr|]. split; [exact Hle|].
    split; [by intros [? [=]] | exact Hn].
  - split; [exact Hc|]. split; [reflexivity|].
    exists (err_of res0), evs. split; [exact Ht|]. split; [exact Hr|]. split; [exact Hle|].
    split; [intros _; by apply Herr | exact Hn].
Qed.

Lemma keys_shape r k part w :
  retried r (CmdKeys k) part w (newRedisKeysOperator r k part w).
Proof.
  unfold newRedisKeysOperator. munfold.
  destruct (first_then_retry_retried (CmdKeys k) (doKeys k) r "Keys command failed: %v\n" [] w part
              (fun res => SetStructured part (VArray (map VString res))) (call_invokes _ _))
    as (res0 & w1 & -> & res' & w' & -> & Hret).
  by destruct res'.
Qed.

Lemma scard_shape r k part w :
  retried r (CmdSCard k) part w (newRedisSCardOperator r k part w).
Proof.
  unfold newRedisSCardOperator. munfold.
  destruct (first_then_retry_retried (CmdSCard k) (doSCard k) r "SCard command failed: %v\n" [] w part
              (fun res => SetBytes part (AppendInt res)) (call_invokes _ _))
    as (res0 & w1 & -> & res' & w' & -> & Hret).
  by destruct res'.
Qed.

(** [sadd]: a message whose content cannot be read as bytes is failed
without touching the store; otherwise the content is the member added. *)
Lemma sadd_shape r k part w :
  match AsBytes part with
  | Err e => newRedisSAddOperator r k part w = ((Some e, part), w)
  | Ok mBytes => retried r (CmdSAdd k mBytes) part w (newRedisSAddOperator r k part w)
  end.
Proof.
  unfold newRedisSAddOperator. destruct (AsBytes part) as [mBytes|e]; [|reflexivity]. munfold.
  destruct (first_then_retry_retried (CmdSAdd k mBytes) (doSAdd k mBytes) r
              "SAdd command failed: %v\n" [] w part
              (fun res => SetBytes part (AppendInt res)) (call_invokes _ _))
    as (res0 & w1 & -> & res' & w' & -> & Hret).
  by destruct res'.
Qed.

Lemma incrby_shape r k part w :
  match AsBytes part with
  | Err e => newRedisIncrByOperator r k part w = ((Some e, part), w)
  | Ok mBytes =>
      match Atoi mBytes with
      | Err e => newRedisIncrByOperator r k part w = ((Some e, part), w)
      | Ok n => retried r (CmdIncrBy k n) part w (newRedisIncrByOperator r k part w)
      end
  end.
Proof.
  unfold newRedisIncrByOperator. destruct (AsBytes part) as [mBytes|e]; [|reflexivity].
  destruct (Atoi mBytes) as [n|e]; [|reflexivity]. munfold.
  destruct (first_then_retry_retried (CmdIncrBy k n) (doIncrBy k n) r
              "incrby command failed: %v\n" [] w part
              (fun res => SetBytes part (AppendInt res)) (call_invokes _ _))
    as (res0 & w1 & -> & res' & w' & -> & Hret).
  by destruct res'.
Qed.

(** [execRaw] with arguments that resolve to an array. *)
Lemma execRaw_resolved_shape r index inBatch msg w resMsg args :
  bloblang.Query (argsMapping r) index inBatch = Ok resMsg ->
  AsStructured resMsg = Ok (VArray args) ->
  retried r (CmdDo (VString (field.Resolve (command r) index inBatch) :: map normalise args))
    msg w (execRaw r index inBatch msg w).
Proof.
  intros Hq Hs. unfold execRaw. rewrite Hq, Hs. munfold.
  set (cargs := VString (field.Resolve (command r) index inBatch) :: map normalise args).
  destruct (first_then_retry_retried (CmdDo cargs) (doDoContext cargs) r
              "%v command failed: %v" [field.Resolve (command r) index inBatch] w msg
              (fun res => SetStructured msg res) (doDoContext_invokes _))
    as (res0 & w1 & -> & res' & w' & -> & Hret).
  by destruct res'.
Qed.

(** [execRaw] with arguments that do not resolve to an array. *)
Lemma execRaw_unresolved r index inBatch msg w :
  (forall resMsg args, bloblang.Query (argsMapping r) index inBatch = Ok resMsg ->
                       AsStructured resMsg ≠ Ok (VArray args)) ->
  exists e, execRaw r index inBatch msg w = ((Some e, msg), w).
Proof.
  intros Hno. unfold execRaw.
  destruct (bloblang.Query (argsMapping r) index inBatch) as [resMsg|e]; [|by eexists].
  destruct (AsStructured resMsg) as [iargs|e] eqn:Hs; [|by eexists].
  destruct iargs; try by eexists. exfalso. by eapply Hno.
Qed.

(** Whatever the mode, an attempt either fails before any invocation and
leaves everything as it was, or is a first invocation followed by
retries. *)
Lemma attempt_shape r inBatch i part w :
  (exists e, attempt r inBatch i part w = ((Some e, part), w))
  \/ exists cmd, retried r cmd part w (attempt r inBatch i part w).
Proof.
  unfold attempt. destruct (operator r) as [[| | |]|].
  - right. eexists. apply keys_shape.
  - right. eexists. apply scard_shape.
  - pose proof (sadd_shape r (field.Resolve (key r) i inBatch) part w) as Hs.
    cbn [run_operator]. destruct (AsBytes part); [right; by eexists | left; by eexists].
  - pose proof (incrby_shape r (field.Resolve (key r) i inBatch) part w) as Hs.
    cbn [run_operator]. destruct (AsBytes part) as [b|]; [|left; by eexists].
    destruct (Atoi b); [right; by eexists | left; by eexists].
  - destruct (bloblang.Query (argsMapping r) i inBatch) as [resMsg|e] eqn:Hq.
    + destruct (AsStructured resMsg) as [[| | | | | | |args|]|e] eqn:Hs;
        try (left; apply execRaw_unresolved; intros ? ? Hq'; rewrite Hq in Hq';
             injection Hq' as <-; rewrite Hs; discriminate).
      right. eexists. by eapply execRaw_resolved_shape.
    + left. apply execRaw_unresolved. intros ? ? Hq'. rewrite Hq in Hq'. discriminate.
Qed.


(** What [retried] says about the events added. *)
Lemma retried_events r cmd part (w : World C) (out : option error * Part * World C) :
  retried r cmd part w out ->
  let evs := new_events w out.2 in
  exists errs : list error,
    commands evs = replicate (S (length errs)) cmd
    /\ outcomes evs = (Some <$> errs) ++ [out.1.1]
    /\ length (calls evs) = S (length errs)
    /\ length (sleeps evs) = length errs
    /\ length (errorfs evs) = length errs
    /\ (length errs <= max_rounds r)%nat
    /\ (is_Some out.1.1 -> length errs = max_rounds r)
    /\ now out.2 = now w + Z.of_nat (length errs) * Z.max 0 (retryPeriod r).
Proof.
  destruct out as [[err part'] w']. unfold retried. cbn [fst snd].
  intros (_ & _ & e0 & evs & Ht & Hr & Hle & Hfull & Hn).
  rewrite (redis_new_events_app w w' _ Ht).
  destruct (rounds_outcomes _ _ _ _ Hr) as (errs & Hout).
  assert (length (calls evs) = length errs) as Hlen.
  { assert (length (outcomes evs) = length (calls evs)) as <-.
    { clear. induction evs as [|[] evs IH]; simpl; auto. }
    apply (f_equal length) in Hout. rewrite length_app, length_fmap in Hout.
    simpl in Hout. lia. }
  exists errs. cbn [commands outcomes calls sleeps errorfs flat_map List.filter
                    is_call is_sleep is_errorf app length].
  fold (commands evs) (outcomes evs) (calls evs) (sleeps evs) (errorfs evs).
  rewrite (rounds_commands _ _ _ _ Hr), (rounds_errorfs _ _ _ _ Hr),
    (rounds_counts _ _ _ _ Hr), Hlen in *.
  repeat split; try done.
Qed.

(** *** The claims of this part *)

(** X9.  One attempt on one message, in either mode, invokes the store at
most [retries + 2] times (once for a negative [retries]); each invocation
after the first is preceded by one delay of [retryPeriod] and one error
line, so the attempt blocks for exactly (invocations - 1) periods, a period
that is zero or negative counting for no time; it never touches the
context. *)
Theorem attempt_budget r inBatch i part w :
  let '(_, w') := attempt r inBatch i part w in
  let evs := new_events w w' in
  (length (calls evs) <= Z.to_nat (retries r + 1) + 1)%nat
  /\ length (sleeps evs) = (length (calls evs) - 1)%nat
  /\ length (errorfs evs) = length (sleeps evs)
  /\ now w' = now w + Z.of_nat (length (sleeps evs)) * Z.max 0 (retryPeriod r)
  /\ cancel_at w' = cancel_at w
  /\ (retries r < 0 -> (length (calls evs) <= 1)%nat).
Proof.
  destruct (attempt_shape r inBatch i part w) as [(e & ->) | (cmd & Hret)].
  - unfold new_events. rewrite drop_all. simpl. repeat split; lia.
  - destruct (retried_events r cmd part w _ Hret)
      as (errs & _ & _ & Hc & Hs & He & Hle & _ & Hn).
    destruct (attempt r inBatch i part w) as [[err part'] w'].
    cbn [fst snd] in *. cbv zeta. rewrite Hc, Hs, He. unfold max_rounds in Hle.
    destruct Hret as (Hctx & _).
    repeat split; try done; lia.
Qed.

(** X10.  The invocations of one attempt are all of the same command with
the same arguments; every one of them but the last returned an error, and
the error (or success) of the last one is the result of the attempt.  An
attempt that invokes nothing fails and leaves the world as it was. *)
Theorem attempt_invocations r inBatch i part w :
  let '((err, _), w') := attempt r inBatch i part w in
  let evs := new_events w w' in
  (outcomes evs = [] /\ is_Some err /\ w' = w)
  \/ exists cmd (errs : list error),
       commands evs = replicate (S (length errs)) cmd
       /\ outcomes evs = (Some <$> errs) ++ [err].
Proof.
  destruct (attempt_shape r inBatch i part w) as [(e & ->) | (cmd & Hret)].
  - cbv zeta. left. unfold new_events. rewrite drop_all. by split; [|split; [eexists|]].
  - destruct (retried_events r cmd part w _ Hret) as (errs & Hcmd & Hout & _).
    destruct (attempt r inBatch i part w) as [[err part'] w']. cbv zeta. right.
    by exists cmd, errs.
Qed.

(** X11.  What each operator sends.  [keys] and [scard] send the resolved
key; [sadd] sends the key and the message content as the member; [incrby]
sends the key and the integer the content reads as.  Every retry sends
the same again.  A message whose content cannot be read ([sadd], [incrby])
or is not an integer ([incrby]) is failed with the conversion error and the
store is not invoked. *)
Theorem operator_invocations op r k part w :
  let out := run_operator op r k part w in
  let sends cmd := exists m, commands (new_events w out.2) = replicate (S m) cmd in
  match op with
  | opKeys => sends (CmdKeys k)
  | opSCard => sends (CmdSCard k)
  | opSAdd =>
      match AsBytes part with
      | Err e => out = ((Some e, part), w)
      | Ok mBytes => sends (CmdSAdd k mBytes)
      end
  | opIncrBy =>
      match AsBytes part with
      | Err e => out = ((Some e, part), w)
      | Ok mBytes =>
          match Atoi mBytes with
          | Err e => out = ((Some e, part), w)
          | Ok n => sends (CmdIncrBy k n)
          end
      end
  end.
Proof.
  cbv zeta. destruct op; cbn [run_operator].
  - destruct (retried_events r _ part w _ (keys_shape r k part w)) as (errs & Hcmd & _).
    by exists (length errs).
  - destruct (retried_events r _ part w _ (scard_shape r k part w)) as (errs & Hcmd & _).
    by exists (length errs).
  - pose proof (sadd_shape r k part w) as Hs.
    destruct (AsBytes part) as [b|e]; [|exact Hs].
    destruct (retried_events r _ part w _ Hs) as (errs & Hcmd & _). by exists (length errs).
  - pose proof (incrby_shape r k part w) as Hs.
    destruct (AsBytes part) as [b|e]; [|exact Hs].
    destruct (Atoi b) as [n|e]; [|exact Hs].
    destruct (retried_events r _ part w _ Hs) as (errs & Hcmd & _). by exists (length errs).
Qed.

(** X12.  When the arguments cannot be used, [execRaw] fails without
invoking the store and without any retry: a failed mapping is reported as
such, a result that cannot be decoded gives the decoding error, and a
result that is not an array is reported with the type it has. *)
Theorem execRaw_unusable_args r index inBatch msg w :
  (forall e, bloblang.Query (argsMapping r) index inBatch = Err e ->
     execRaw r index inBatch msg w = ((Some ("args mapping failed: " +:+ e), msg), w))
  /\ (forall resMsg e, bloblang.Query (argsMapping r) index inBatch = Ok resMsg ->
        AsStructured resMsg = Err e ->
        execRaw r index inBatch msg w = ((Some e, msg), w))
  /\ (forall resMsg v, bloblang.Query (argsMapping r) index inBatch = Ok resMsg ->
        AsStructured resMsg = Ok v ->
        (forall args, v ≠ VArray args) ->
        execRaw r index inBatch msg w
        = ((Some ("mapping returned non-array result: " +:+ type_name v), msg), w)).
Proof.
  unfold execRaw. split; [|split].
  - by intros e ->.
  - by intros resMsg e -> ->.
  - intros resMsg v -> -> Hno. destruct v; try reflexivity. by destruct (Hno vs).
Qed.

(** X13.  With arguments that resolve to an array [execRaw] sends, in every
invocation, the resolved command name followed by the arguments in their
order, one for one; no argument at the top level is left a [json.Number]. *)
Theorem execRaw_invocation_args r index inBatch msg w resMsg args :
  bloblang.Query (argsMapping r) index inBatch = Ok resMsg ->
  AsStructured resMsg = Ok (VArray args) ->
  let evs := new_events w (execRaw r index inBatch msg w).2 in
  exists m sent,
    commands evs
      = replicate (S m) (CmdDo (VString (field.Resolve (command r) index inBatch) :: sent))
    /\ sent = map normalise args
    /\ length sent = length args
    /\ Forall (fun v => is_number v = false) sent.
Proof.
  intros Hq Hs.
  destruct (retried_events r _ msg w _ (execRaw_resolved_shape r index inBatch msg w resMsg args Hq Hs))
    as (errs & Hcmd & _).
  exists (length errs), (map normalise args). split; [exact Hcmd|]. split; [reflexivity|].
  split; [by rewrite length_map|].
  apply Forall_forall. intros v Hv. apply list_elem_of_In, in_map_iff in Hv as (v0 & <- & _).
  destruct v0; try reflexivity. simpl.
  destruct (Number_Int64 n); [reflexivity|]. by destruct (Number_Float64 n).
Qed.

(** X14.  Normalising an argument prefers the integer reading of a
[json.Number] to the floating-point one and falls back to its text; it
leaves every other value alone, never yields a [json.Number], and
normalising twice is the same as normalising once. *)
Theorem normalise_idempotent (v : Value) :
  normalise (normalise v) = normalise v
  /\ is_number (normalise v) = false
  /\ (is_number v = false -> normalise v = v)
  /\ (forall n i, v = VNumber n -> Number_Int64 n = Ok i -> normalise v = VInt64 i)
  /\ (forall n e f, v = VNumber n -> Number_Int64 n = Err e -> Number_Float64 n = Ok f ->
        normalise v = VFloat64 f)
  /\ (forall n e e', v = VNumber n -> Number_Int64 n = Err e -> Number_Float64 n = Err e' ->
        normalise v = VString n).
Proof.
  destruct v; simpl; try (repeat split; (reflexivity || discriminate)).
  destruct (Number_Int64 n) as [i|e] eqn:Hi; [|destruct (Number_Float64 n) as [f|e'] eqn:Hf]; simpl.
  - repeat split; try done; intros; simplify_eq; congruence.
  - repeat split; try done; intros; simplify_eq; congruence.
  - repeat split; try done; intros; simplify_eq; congruence.
Qed.

(** X15.  [getRedisOperator] knows exactly the four names [keys], [sadd],
[scard] and [incrby], spelled so, each standing for its own operator; any
other string is rejected with an error that names it. *)
Theorem getRedisOperator_names (opStr : string) :
  (opStr ∈ operator_names <-> exists op, getRedisOperator opStr = Ok op)
  /\ (opStr ∉ operator_names ->
        getRedisOperator opStr = Err ("operator not recognised: " +:+ opStr))
  /\ getRedisOperator "keys" = Ok opKeys
  /\ getRedisOperator "sadd" = Ok opSAdd
  /\ getRedisOperator "scard" = Ok opSCard
  /\ getRedisOperator "incrby" = Ok opIncrBy.
Proof.
  unfold getRedisOperator, operator_names.
  split; [|split; [|by repeat split]].
  - split.
    + intros Hin. repeat (apply elem_of_cons in Hin as [->|Hin]); try by eexists.
      by apply elem_of_nil in Hin.
    + intros [op Hop]. repeat case_decide; subst; try discriminate; set_solver.
  - intros Hnot. repeat case_decide; subst; try reflexivity; exfalso; apply Hnot; set_solver.
Qed.


(** *** The whole batch *)

Lemma within_refl period (w : World C) : within 0 0 period w w.
Proof.
  split; [reflexivity|]. exists []. rewrite app_nil_r. simpl. repeat split; lia.
Qed.

Lemma within_trans a b a' b' period (w1 w2 w3 : World C) :
  within a b period w1 w2 -> within a' b' period w2 w3 ->
  within (a + a') (b + b') period w1 w3.
Proof.
  intros (Hc1 & evs1 & Ht1 & Ha1 & Hb1 & He1 & Hn1) (Hc2 & evs2 & Ht2 & Ha2 & Hb2 & He2 & Hn2).
  split; [congruence|]. exists (evs1 ++ evs2).
  rewrite calls_app, sleeps_app, errorfs_app, !length_app.
  split; [by rewrite Ht2, Ht1, app_assoc|]. repeat split; lia.
Qed.

Lemma attempt_within r inBatch i part (w : World C) :
  within (max_rounds r + 1) (max_rounds r) (Z.max 0 (retryPeriod r)) w (attempt r inBatch i part w).2.
Proof.
  destruct (attempt_shape r inBatch i part w) as [(e & ->) | (cmd & Hret)].
  - destruct (within_refl (Z.max 0 (retryPeriod r)) w) as (Hc & evs & Ht & Ha & Hb & He & Hn).
    split; [exact Hc|]. exists evs. repeat split; try done; lia.
  - pose proof (retried_events r cmd part w _ Hret) as Hev.
    destruct (attempt r inBatch i part w) as [[err part'] w'].
    destruct Hret as (Hctx & _ & e0 & evs & Ht & _).
    cbn [fst snd] in *. rewrite (redis_new_events_app w w' _ Ht) in Hev.
    destruct Hev as (errs & _ & _ & Hc & Hs & He & Hle & _ & Hn).
    split; [exact Hctx|]. exists (EvCall cmd e0 :: evs).
    rewrite Hc, Hs, He. repeat split; try done; lia.
Qed.

(** The loop body adds to the attempt at most one debug line. *)
Lemma process_part_world r inBatch i part (w : World C) :
  within 0 0 (Z.max 0 (retryPeriod r)) (attempt r inBatch i part w).2 (process_part r inBatch i part w).2.
Proof.
  unfold process_part, attempt. destruct (operator r) as [op|]; munfold.
  - destruct (run_operator op r _ part w) as [[[e|] part'] w1]; cbn [snd];
      [|apply within_refl].
    split; [reflexivity|]. eexists [_]. split; [reflexivity|]. cbn. repeat split; lia.
  - destruct (execRaw r i inBatch part w) as [[[e|] part'] w1]; cbn [snd];
      [|apply within_refl].
    split; [reflexivity|]. eexists [_]. split; [reflexivity|]. cbn. repeat split; lia.
Qed.

Lemma process_part_within r inBatch i part (w : World C) :
  within (max_rounds r + 1) (max_rounds r) (Z.max 0 (retryPeriod r)) w (process_part r inBatch i part w).2.
Proof.
  pose proof (within_trans _ _ _ _ _ _ _ _ (attempt_within r inBatch i part w)
                (process_part_world r inBatch i part w)) as Hw.
  by rewrite !Nat.add_0_r in Hw.
Qed.

Lemma process_parts_within r inBatch parts : forall index (w : World C),
  within (length parts * (max_rounds r + 1)) (length parts * max_rounds r) (Z.max 0 (retryPeriod r))
    w (process_parts r inBatch index parts w).2.
Proof.
  induction parts as [|p rest IH]; intros index w; [apply within_refl|].
  cbn [process_parts]. munfold.
  pose proof (process_part_within r inBatch index p w) as Hp.
  destruct (process_part r inBatch index p w) as [p' w1].
  specialize (IH (S index) w1).
  destruct (process_parts r inBatch (S index) rest w1) as [rest' w2].
  cbn [snd length] in *. exact (within_trans _ _ _ _ _ _ _ _ Hp IH).
Qed.

Lemma ProcessBatch_world r inBatch (w : World C) :
  (ProcessBatch r inBatch w).2 = (process_parts r inBatch 0%nat inBatch w).2.
Proof.
  unfold ProcessBatch. munfold. rewrite Copy_id.
  by destruct (process_parts r inBatch 0%nat inBatch w).
Qed.

(** X16.  A whole batch of [n] messages invokes the store at most
[n * (retries + 2)] times and sleeps at most [n * (retries + 1)] times; the
call blocks for exactly one [retryPeriod] per delay (for no time when the
period is zero or negative), hence for at most [n * (retries + 1)] periods;
the context is never touched.  An empty batch invokes nothing. *)
Theorem ProcessBatch_budget r inBatch w :
  let '(_, w') := ProcessBatch r inBatch w in
  let evs := new_events w w' in
  let n := length inBatch in
  (length (calls evs) <= n * (Z.to_nat (retries r + 1) + 1))%nat
  /\ (length (sleeps evs) <= n * Z.to_nat (retries r + 1))%nat
  /\ now w' = now w + Z.of_nat (length (sleeps evs)) * Z.max 0 (retryPeriod r)
  /\ now w' <= now w + Z.of_nat (n * Z.to_nat (retries r + 1)) * Z.max 0 (retryPeriod r)
  /\ cancel_at w' = cancel_at w.
Proof.
  pose proof (ProcessBatch_world r inBatch w) as Hw.
  pose proof (process_parts_within r inBatch inBatch 0%nat w) as Hin.
  destruct (ProcessBatch r inBatch w) as [res w']. cbn [snd] in Hw. rewrite <- Hw in Hin.
  destruct Hin as (Hctx & evs & Ht & Ha & Hb & _ & Hn). unfold max_rounds in *.
  rewrite (redis_new_events_app w w' evs Ht). cbv zeta.
  repeat split; try done. rewrite Hn.
  pose proof (Z.le_max_l 0 (retryPeriod r)). nia.
Qed.

(** *** Operators and the context *)

Lemma call_same {A} (c : Cmd) (f : C -> result A * C) (w1 w2 : World C) :
  same_but_context w1 w2 ->
  (call c f w1).1 = (call c f w2).1
  /\ same_but_context (call c f w1).2 (call c f w2).2.
Proof.
  intros (Hcl & Hn & Ht). unfold call. rewrite Hcl.
  destruct (f (client w2)) as [res cl]. cbn [fst snd]. split; [reflexivity|].
  unfold same_but_context. cbn [client now trace].
  split; [reflexivity|]. split; [exact Hn|].
  by rewrite !uncancelled_app, Ht.
Qed.

(** Logging an error and sleeping do the same in both worlds, up to the
mark of a cancellation. *)
Lemma pause_same d fmt args (w1 w2 : World C) :
  same_but_context w1 w2 ->
  same_but_context (Sleep d (Errorf fmt args w1).2).2 (Sleep d (Errorf fmt args w2).2).2.
Proof.
  intros (Hcl & Hn & Ht). unfold Errorf, emit, Sleep, same_but_context.
  cbn [fst snd client now cancel_at trace].
  split; [exact Hcl|]. split; [lia|].
  rewrite !uncancelled_app, Ht. f_equal.
  by destruct (match cancel_at w1 with Some _ => _ | None => _ end),
             (match cancel_at w2 with Some _ => _ | None => _ end).
Qed.

Lemma retry_loop_same {A} (c : Cmd) (f : C -> result A * C) iters d fmt args :
  forall res (w1 w2 : World C),
  same_but_context w1 w2 ->
  (retry_loop iters d fmt args (call c f) res w1).1
  = (retry_loop iters d fmt args (call c f) res w2).1
  /\ same_but_context (retry_loop iters d fmt args (call c f) res w1).2
       (retry_loop iters d fmt args (call c f) res w2).2.
Proof.
  induction iters as [|i iters IH]; intros res w1 w2 Hsame; [by split|].
  destruct res as [a|err]; [by split|].
  assert (forall w : World C,
            retry_loop (i :: iters) d fmt args (call c f) (Err err) w
            = let '(res', w') := call c f (Sleep d (Errorf fmt (args ++ [err]) w).2).2 in
              retry_loop iters d fmt args (call c f) res' w') as Hstep by reflexivity.
  rewrite !Hstep.
  destruct (call_same c f _ _ (pause_same d fmt (args ++ [err]) w1 w2 Hsame)) as (Hres & Hs).
  destruct (call c f (Sleep d (Errorf fmt (args ++ [err]) w1).2).2) as [res1 w1'].
  destruct (call c f (Sleep d (Errorf fmt (args ++ [err]) w2).2).2) as [res2 w2'].
  cbn [fst snd] in Hres, Hs. subst res2. by apply IH.
Qed.

(** A first invocation and its retries do the same in both worlds. *)
Lemma first_then_retry_same {A} (c : Cmd) (f : C -> result A * C) r fmt args
    (K : result A -> option error * Part) (w1 w2 : World C) :
  same_but_context w1 w2 ->
  let run w := let '(res0, w') := call c f w in
               let '(res, w'') := retry r fmt args (call c f) res0 w' in
               (K res, w'') in
  (run w1).1 = (run w2).1 /\ same_but_context (run w1).2 (run w2).2.
Proof.
  intros Hsame run. subst run. cbv beta.
  destruct (call_same c f w1 w2 Hsame) as (Hres & Hs).
  destruct (call c f w1) as [res1 w1'], (call c f w2) as [res2 w2'].
  cbn [fst snd] in Hres, Hs. subst res2.
  destruct (retry_loop_same c f (seqZ 0 (retries r + 1)) (retryPeriod r) fmt args res1 w1' w2' Hs)
    as (Hres & Hs').
  fold (retry r fmt args (call c f) res1 w1') in Hres, Hs'.
  fold (retry r fmt args (call c f) res1 w2') in Hres, Hs'.
  destruct (retry r fmt args (call c f) res1 w1') as [r1 v1].
  destruct (retry r fmt args (call c f) res1 w2') as [r2 v2].
  cbn [fst snd] in *. by subst r2.
Qed.

(** X18.  The four operators never consult the context: run in two worlds
that differ only in when (or whether) the context is cancelled, an operator
returns the same error, leaves the same message, makes the same invocations
with the same outcomes, sleeps as long and leaves the store in the same
state.  Cancelling the context cannot cut the retries of an operator
short. *)
Theorem operator_ignores_context op r k part (w : World C) (c : option Z) :
  (run_operator op r k part w).1 = (run_operator op r k part (with_cancel c w)).1
  /\ same_but_context (run_operator op r k part w).2
       (run_operator op r k part (with_cancel c w)).2.
Proof.
  assert (same_but_context w (with_cancel c w)) as Hsame by by repeat split.
  destruct op; cbn [run_operator].
  - unfold newRedisKeysOperator, doKeys. munfold.
    pose proof (first_then_retry_same (CmdKeys k) (fun cl => Keys cl k) r
                  "Keys command failed: %v\n" []
                  (fun res => match res with
                              | Err err => (Some err, part)
                              | Ok res => (None, SetStructured part (VArray (map VString res)))
                              end) w (with_cancel c w) Hsame) as Hrun.
    cbv beta zeta in Hrun.
    destruct (call _ _ w) as [a1 v1], (call _ _ (with_cancel c w)) as [a2 v2].
    destruct (retry _ _ _ _ a1 v1) as [[?|?] ?], (retry _ _ _ _ a2 v2) as [[?|?] ?]; exact Hrun.
  - unfold newRedisSCardOperator, doSCard. munfold.
    pose proof (first_then_retry_same (CmdSCard k) (fun cl => SCard cl k) r
                  "SCard command failed: %v\n" []
                  (fun res => match res with
                              | Err err => (Some err, part)
                              | Ok res => (None, SetBytes part (AppendInt res))
                              end) w (with_cancel c w) Hsame) as Hrun.
    cbv beta zeta in Hrun.
    destruct (call _ _ w) as [a1 v1], (call _ _ (with_cancel c w)) as [a2 v2].
    destruct (retry _ _ _ _ a1 v1) as [[?|?] ?], (retry _ _ _ _ a2 v2) as [[?|?] ?]; exact Hrun.
  - unfold newRedisSAddOperator, doSAdd. destruct (AsBytes part) as [b|e]; [|by split].
    munfold.
    pose proof (first_then_retry_same (CmdSAdd k b) (fun cl => SAdd cl k b) r
                  "SAdd command failed: %v\n" []
                  (fun res => match res with
                              | Err err => (Some err, part)
                              | Ok res => (None, SetBytes part (AppendInt res))
                              end) w (with_cancel c w) Hsame) as Hrun.
    cbv beta zeta in Hrun.
    destruct (call _ _ w) as [a1 v1], (call _ _ (with_cancel c w)) as [a2 v2].
    destruct (retry _ _ _ _ a1 v1) as [[?|?] ?], (retry _ _ _ _ a2 v2) as [[?|?] ?]; exact Hrun.
  - unfold newRedisIncrByOperator, doIncrBy. destruct (AsBytes part) as [b|e]; [|by split].
    destruct (Atoi b) as [n|e]; [|by split]. munfold.
    pose proof (first_then_retry_same (CmdIncrBy k n) (fun cl => IncrBy cl k n) r
                  "incrby command failed: %v\n" []
                  (fun res => match res with
                              | Err err => (Some err, part)
                              | Ok res => (None, SetBytes part (AppendInt res))
                              end) w (with_cancel c w) Hsame) as Hrun.
    cbv beta zeta in Hrun.
    destruct (call _ _ w) as [a1 v1], (call _ _ (with_cancel c w)) as [a2 v2].
    destruct (retry _ _ _ _ a1 v1) as [[?|?] ?], (retry _ _ _ _ a2 v2) as [[?|?] ?]; exact Hrun.
Qed.

(** *** Messages in order *)

Lemma commands_calls (evs : list Event) : length (commands evs) = length (calls evs).
Proof. induction evs as [|[] evs IH]; simpl; auto. Qed.

Lemma execRaw_cases r index inBatch msg (w : World C) :
  match command_of (mkRedisProc (key r) None (command r) (argsMapping r)
                      (retries r) (retryPeriod r)) inBatch index msg with
  | None => exists e, execRaw r index inBatch msg w = ((Some e, msg), w)
  | Some cmd => retried r cmd msg w (execRaw r index inBatch msg w)
  end.
Proof.
  unfold command_of. cbn [operator argsMapping command].
  destruct (bloblang.Query (argsMapping r) index inBatch) as [resMsg|e] eqn:Hq.
  - destruct (AsStructured resMsg) as [[| | | | | | |args|]|e] eqn:Hs;
      try (apply execRaw_unresolved; intros ? ? Hq'; rewrite Hq in Hq';
           injection Hq' as <-; rewrite Hs; discriminate).
    by eapply execRaw_resolved_shape.
  - apply execRaw_unresolved. intros ? ? Hq'. rewrite Hq in Hq'. discriminate.
Qed.

(** What one attempt sends: nothing, leaving the world as it was, when the
message stands for no command; otherwise its command, at least once and at
most once more than the retry loop can run. *)
Lemma attempt_commands r inBatch i part (w : World C) :
  match command_of r inBatch i part with
  | None => (attempt r inBatch i part w).2 = w
  | Some cmd =>
      exists k, (1 <= k <= max_rounds r + 1)%nat
        /\ commands (new_events w (attempt r inBatch i part w).2) = replicate k cmd
  end.
Proof.
  assert (forall cmd out, retried r cmd part w out ->
            exists k, (1 <= k <= max_rounds r + 1)%nat
              /\ commands (new_events w out.2) = replicate k cmd) as Hsend.
  { intros cmd out Hret.
    destruct (retried_events r cmd part w out Hret) as (errs & Hcmd & _ & _ & _ & _ & Hle & _).
    exists (S (length errs)). split; [lia | exact Hcmd]. }
  unfold command_of, attempt. destruct (operator r) as [[| | |]|] eqn:Hop; cbn [run_operator].
  - apply Hsend, keys_shape.
  - apply Hsend, scard_shape.
  - pose proof (sadd_shape r (field.Resolve (key r) i inBatch) part w) as Hs.
    destruct (AsBytes part); [by apply Hsend | by rewrite Hs].
  - pose proof (incrby_shape r (field.Resolve (key r) i inBatch) part w) as Hs.
    destruct (AsBytes part) as [b|]; [|by rewrite Hs].
    destruct (Atoi b); [by apply Hsend | by rewrite Hs].
  - pose proof (execRaw_cases r i inBatch part w) as Hs.
    unfold command_of in Hs. cbn [operator argsMapping command key] in Hs.
    destruct (bloblang.Query (argsMapping r) i inBatch) as [resMsg|e].
    + destruct (AsStructured resMsg) as [[| | | | | | |args|]|e];
        try (by destruct Hs as (e' & ->)).
      by apply Hsend.
    + by destruct Hs as (e' & ->).
Qed.

Lemma process_part_commands r inBatch i part (w : World C) :
  exists k, (1 <= k <= max_rounds r + 1)%nat
    /\ commands (new_events w (process_part r inBatch i part w).2)
       = match command_of r inBatch i part with
         | Some cmd => replicate k cmd
         | None => []
         end.
Proof.
  destruct (process_part_world r inBatch i part w) as (_ & dbg & Ht & Hc & _).
  assert (commands dbg = []) as Hdbg.
  { apply length_zero_iff_nil. rewrite commands_calls. lia. }
  pose proof (attempt_commands r inBatch i part w) as Ha.
  destruct (command_of r inBatch i part) as [cmd|].
  - destruct Ha as (k & Hk & Hcmd). exists k. split; [exact Hk|].
    destruct (attempt_within r inBatch i part w) as (_ & evs & Hte & _).
    rewrite (redis_new_events_app _ _ _ Hte) in Hcmd.
    rewrite Hte, <- app_assoc in Ht.
    by rewrite (redis_new_events_app _ _ _ Ht), commands_app, Hcmd, Hdbg, app_nil_r.
  - exists 1%nat. split; [lia|]. rewrite Ha in Ht.
    by rewrite (redis_new_events_app _ _ _ Ht).
Qed.

Lemma process_parts_commands r inBatch parts : forall index (w : World C),
  exists counts,
    length counts = length parts
    /\ Forall (fun k => 1 <= k <= max_rounds r + 1)%nat counts
    /\ commands (new_events w (process_parts r inBatch index parts w).2)
       = sent r inBatch index parts counts.
Proof.
  induction parts as [|p rest IH]; intros index w.
  - exists []. cbn [process_parts]. munfold. cbn [snd]. unfold new_events.
    by rewrite drop_all.
  - cbn [process_parts]. munfold.
    destruct (process_part_commands r inBatch index p w) as (k & Hk & Hcmd).
    destruct (process_part_within r inBatch index p w) as (_ & evs1 & Ht1 & _).
    destruct (process_part r inBatch index p w) as [p' w1]. cbn [snd] in *.
    destruct (IH (S index) w1) as (counts & Hlen & Hall & Hrest).
    destruct (process_parts_within r inBatch rest (S index) w1) as (_ & evs2 & Ht2 & _).
    destruct (process_parts r inBatch (S index) rest w1) as [rest' w2]. cbn [snd] in *.
    exists (k :: counts). split; [simpl; by rewrite Hlen|]. split; [by constructor|].
    rewrite (redis_new_events_app _ _ _ Ht1) in Hcmd.
    rewrite (redis_new_events_app _ _ _ Ht2) in Hrest.
    rewrite Ht1, <- app_assoc in Ht2.
    rewrite (redis_new_events_app _ _ _ Ht2), commands_app, Hcmd, Hrest. reflexivity.
Qed.

(** X17.  The store receives the commands of a batch grouped by message, in
batch order: for each message in turn the command it stands for, resolved
against the batch as it arrived, at least once and at most [retries + 2]
times; a message that stands for no command (unreadable content, unusable
arguments) sends nothing.  Nothing else is sent, and the failure of one
message does not keep a later one from being sent. *)
Theorem ProcessBatch_sends_in_order r inBatch w :
  exists counts,
    length counts = length inBatch
    /\ Forall (fun k => 1 <= k <= Z.to_nat (retries r + 1) + 1)%nat counts
    /\ commands (new_events w (ProcessBatch r inBatch w).2)
       = sent r inBatch 0 inBatch counts.
Proof.
  rewrite ProcessBatch_world. exact (process_parts_commands r inBatch inBatch 0%nat w).
Qed.

(** *** What succeeded *)

Lemma call_asks {A} (c : Cmd) (f : C -> result A * C) : asks c (fun _ => f) (call c f).
Proof. intros w. by exists false. Qed.

Lemma doDoContext_asks (args : list Value) :
  asks (CmdDo args) (fun done cl => DoContext cl done args) (doDoContext args).
Proof. intros w. by exists (ctx_done w). Qed.

(** A result the retry loop leaves with is the one it was entered with or
the answer of an invocation, after which the store was not touched. *)
Lemma retry_loop_answer {A} (cmd : Cmd) (f : bool -> C -> result A * C)
    (again : M C (result A)) d fmt args :
  asks cmd f again ->
  forall iters res (w : World C) v w',
  retry_loop iters d fmt args again res w = (Ok v, w') ->
  (res = Ok v /\ w' = w) \/ exists done cl, f done cl = (Ok v, client w').
Proof.
  intros Hasks. induction iters as [|i iters IH]; intros res w v w' Hrun.
  - left. by injection Hrun as -> ->.
  - destruct res as [a|err]; [left; by injection Hrun as -> ->|].
    right. revert Hrun. cbn [retry_loop]. munfold. unfold Errorf, emit, Sleep.
    match goal with |- context [again ?W] => destruct (Hasks W) as (done & ->) end.
    unfold call. cbn [client].
    destruct (f done (client w)) as [res1 cl1] eqn:Hf. intros Hrun.
    destruct (IH _ _ _ _ Hrun) as [(-> & ->) | Hlater]; [|exact Hlater].
    by exists done, (client w).
Qed.

Lemma first_then_retry_answer {A} (cmd : Cmd) (f : bool -> C -> result A * C)
    (act : M C (result A)) r fmt args (w : World C) res0 w1 v w' :
  asks cmd f act ->
  act w = (res0, w1) ->
  retry r fmt args act res0 w1 = (Ok v, w') ->
  exists done cl, f done cl = (Ok v, client w').
Proof.
  intros Hasks Hact Hrun.
  destruct (retry_loop_answer cmd f act _ _ _ Hasks _ _ _ _ _ Hrun) as [(-> & ->) | Hlater];
    [|exact Hlater].
  destruct (Hasks w) as (done & Hcall). rewrite Hcall in Hact. unfold call in Hact.
  destruct (f done (client w)) as [res cl] eqn:Hf. injection Hact as -> <-.
  by exists done, (client w).
Qed.

(** X19.  What a successful attempt leaves in the message is what the store
answered to the invocation that succeeded, after which the store was not
touched again: for [keys] the keys returned, as an array of strings; for
[scard], [sadd] and [incrby] the integer returned, as decimal text; for a
generic command the result as it was returned.  Metadata and item error are
those the message had. *)
Theorem attempt_success_content r inBatch i part (w : World C) part' w' :
  attempt r inBatch i part w = ((None, part'), w') ->
  let k := field.Resolve (key r) i inBatch in
  metadata part' = metadata part
  /\ GetError part' = GetError part
  /\ match operator r with
     | Some opKeys =>
         exists cl ks, Keys cl k = (Ok ks, client w')
           /\ payload part' = Structured (VArray (map VString ks))
     | Some opSCard =>
         exists cl n, SCard cl k = (Ok n, client w')
           /\ payload part' = Raw (AppendInt n)
     | Some opSAdd =>
         exists cl mBytes n, AsBytes part = Ok mBytes
           /\ SAdd cl k mBytes = (Ok n, client w')
           /\ payload part' = Raw (AppendInt n)
     | Some opIncrBy =>
         exists cl mBytes valueInt n, AsBytes part = Ok mBytes
           /\ Atoi mBytes = Ok valueInt
           /\ IncrBy cl k valueInt = (Ok n, client w')
           /\ payload part' = Raw (AppendInt n)
     | None =>
         exists cl done resMsg args res,
           bloblang.Query (argsMapping r) i inBatch = Ok resMsg
           /\ AsStructured resMsg = Ok (VArray args)
           /\ DoContext cl done
                (VString (field.Resolve (command r) i inBatch) :: map normalise args)
              = (Ok res, client w')
           /\ payload part' = Structured res
     end.
Proof.
  intros Hrun k. pose proof (attempt_part r inBatch i part w) as Hpart.
  rewrite Hrun in Hpart. destruct Hpart as [Herr Hmeta].
  split; [exact Hmeta|]. split; [exact Herr|].
  unfold attempt in Hrun. fold k in Hrun. destruct (operator r) as [[| | |]|].
  - revert Hrun. unfold run_operator, newRedisKeysOperator. munfold.
    destruct (doKeys k w) as [res0 w1] eqn:E0.
    destruct (retry r _ _ (doKeys k) res0 w1) as [[ks|e] w2] eqn:E1; intros [= <- <-].
    destruct (first_then_retry_answer _ _ _ _ _ _ _ _ _ _ _ (call_asks _ _) E0 E1) as (_ & cl & Hf).
    by exists cl, ks.
  - revert Hrun. unfold run_operator, newRedisSCardOperator. munfold.
    destruct (doSCard k w) as [res0 w1] eqn:E0.
    destruct (retry r _ _ (doSCard k) res0 w1) as [[n|e] w2] eqn:E1; intros [= <- <-].
    destruct (first_then_retry_answer _ _ _ _ _ _ _ _ _ _ _ (call_asks _ _) E0 E1) as (_ & cl & Hf).
    by exists cl, n.
  - revert Hrun. unfold run_operator, newRedisSAddOperator.
    destruct (AsBytes part) as [b|e]; [|discriminate]. munfold.
    destruct (doSAdd k b w) as [res0 w1] eqn:E0.
    destruct (retry r _ _ (doSAdd k b) res0 w1) as [[n|e] w2] eqn:E1; intros [= <- <-].
    destruct (first_then_retry_answer _ _ _ _ _ _ _ _ _ _ _ (call_asks _ _) E0 E1) as (_ & cl & Hf).
    by exists cl, b, n.
  - revert Hrun. unfold run_operator, newRedisIncrByOperator.
    destruct (AsBytes part) as [b|e]; [|discriminate].
    destruct (Atoi b) as [v|e] eqn:Hatoi; [|discriminate]. munfold.
    destruct (doIncrBy k v w) as [res0 w1] eqn:E0.
    destruct (retry r _ _ (doIncrBy k v) res0 w1) as [[n|e] w2] eqn:E1; intros [= <- <-].
    destruct (first_then_retry_answer _ _ _ _ _ _ _ _ _ _ _ (call_asks _ _) E0 E1) as (_ & cl & Hf).
    by exists cl, b, v, n.
  - revert Hrun. unfold execRaw.
    destruct (bloblang.Query (argsMapping r) i inBatch) as [resMsg|e]; [|discriminate].
    destruct (AsStructured resMsg) as [[| | | | | | |args|]|e] eqn:Hs; try discriminate. munfold.
    set (cargs := VString (field.Resolve (command r) i inBatch) :: map normalise args).
    destruct (doDoContext cargs w) as [res0 w1] eqn:E0.
    destruct (retry r _ _ (doDoContext cargs) res0 w1) as [[res|e] w2] eqn:E1; intros [= <- <-].
    destruct (first_then_retry_answer _ _ _ _ _ _ _ _ _ _ _ (doDoContext_asks _) E0 E1)
      as (done & cl & Hf).
    by exists cl, done, resMsg, args, res.
Qed.

(** *** Cancellation *)

(** C4, as amended.  A cancellation of the context during a delay of
[execRaw] does not end the retries.  The delay runs its full length; right
after it the same command is invoked again; and the retries go on as they
would have, ending only when an invocation succeeds or when the retry count
is used up.  What [execRaw] returns is the outcome of its last invocation,
not a cancellation error of its own. *)
Theorem cancel_does_not_abort r index inBatch msg w :
  let '((err, _), w') := execRaw r index inBatch msg w in
  let evs := new_events w w' in
  In EvCancelled evs ->
  (exists c e post, after_cancel evs = EvCall c e :: post)
  /\ last_outcome evs = Some err
  /\ (exists cmd (errs : list error),
        commands evs = replicate (S (length errs)) cmd
        /\ outcomes evs = (Some <$> errs) ++ [err]
        /\ length (sleeps evs) = length errs
        /\ (is_Some err -> length errs = Z.to_nat (retries r + 1)))
  /\ now w' = now w + Z.of_nat (length (sleeps evs)) * Z.max 0 (retryPeriod r).
Proof.
  pose proof (execRaw_cases r index inBatch msg w) as Hcases.
  destruct (command_of _ inBatch index msg) as [cmd|].
  2:{ destruct Hcases as (e & ->). unfold new_events. rewrite drop_all. intros []. }
  pose proof (retried_events r cmd msg w _ Hcases) as Hev.
  destruct (execRaw r index inBatch msg w) as [[err part'] w'].
  destruct Hcases as (_ & _ & e0 & evs & Ht & Hr & _).
  cbn [fst snd] in Hev. rewrite (redis_new_events_app w w' _ Ht) in *. cbv zeta in *.
  destruct Hev as (errs & Hcmd & Hout & _ & Hs & _ & _ & Hfull & Hn).
  intros [Hin|Hin]; [discriminate|]. split; [|split; [|split]].
  - destruct (rounds_after_cancel _ _ _ _ Hr Hin) as (e & post & Hafter).
    exists cmd, e, post. exact Hafter.
  - by apply rounds_last_outcome.
  - exists cmd, errs. unfold max_rounds in Hfull. by repeat split.
  - by rewrite Hs.
Qed.

End Props.

(** *** The properties on concrete inputs *)

Lemma attempt_success_content_witness :
  let r := demo.proc_op opIncrBy 0 in
  let part := demo.part "10" in
  let w := demo.world 0 None in
  exists part' w',
    attempt r [part] 0%nat part w = ((None, part'), w')
    /\ exists cl mBytes valueInt n, AsBytes part = Ok mBytes
         /\ Atoi mBytes = Ok valueInt
         /\ IncrBy cl "ash" valueInt = (Ok n, client w')
         /\ payload part' = Raw (AppendInt n).
Proof.
  intros r part w.
  destruct (attempt r [part] 0%nat part w) as [[[e|] part'] w'] eqn:E;
    [vm_compute in E; discriminate E|].
  exists part', w'. split; [reflexivity|].
  exact (proj2 (proj2 (attempt_success_content r [part] 0%nat part w part' w' E))).
Defined.

Lemma cancel_does_not_abort_witness :
  let r := demo.proc_cmd 3 in
  let msg := demo.part "10" in
  let w := demo.world 10 (Some 100) in
  let '((err, _), w') := execRaw r 0%nat [msg] msg w in
  let evs := new_events w w' in
  In EvCancelled evs
  /\ (exists c e post, after_cancel evs = EvCall c e :: post)
  /\ last_outcome evs = Some err
  /\ (exists cmd (errs : list error),
        commands evs = replicate (S (length errs)) cmd
        /\ outcomes evs = (Some <$> errs) ++ [err]
        /\ length (sleeps evs) = length errs
        /\ (is_Some err -> length errs = Z.to_nat (retries r + 1)))
  /\ now w' = now w + Z.of_nat (length (sleeps evs)) * Z.max 0 (retryPeriod r).
Proof.
  intros r msg w.
  pose proof (cancel_does_not_abort r 0%nat [msg] msg w) as W.
  destruct (execRaw r 0%nat [msg] msg w) as [[err p] w'] eqn:E.
  cbv zeta in *.
  assert (In EvCancelled (new_events w w')) as Hin.
  { vm_compute in E. injection E as _ _ <-. vm_compute. tauto. }
  split; [exact Hin | exact (W Hin)].
Defined.

Lemma execRaw_invocation_args_witness :
  let r := demo.proc_cmd 1 in
  let msg := demo.part "10" in
  let w := demo.world 1 None in
  let evs := new_events w (execRaw r 0%nat [msg] msg w).2 in
  exists m sent,
    commands evs = replicate (S m) (CmdDo (VString "incrby" :: sent))
    /\ sent = map normalise [VString "ash"; VNumber "10"]
    /\ length sent = 2%nat
    /\ Forall (fun v => is_number v = false) sent.
Proof.
  intros r msg w.
  exact (execRaw_invocation_args r 0%nat [msg] msg w
           (mkPart (Structured (VArray [VString "ash"; VNumber "10"])) ∅ None)
           [VString "ash"; VNumber "10"] eq_refl eq_refl).
Defined.

Lemma attempt_budget_witness :
  let r := demo.proc_cmd (-1) in
  let msg := demo.part "10" in
  let w := demo.world 5 None in
  let '(_, w') := attempt r [msg] 0%nat msg w in
  retries r < 0 /\ (length (calls (new_events w w')) <= 1)%nat.
Proof.
  intros r msg w. pose proof (attempt_budget r [msg] 0%nat msg w) as W.
  destruct (attempt r [msg] 0%nat msg w) as [out w'].
  assert (retries r < 0) as Hneg by (vm_compute; reflexivity).
  split; [exact Hneg|]. by apply W.
Defined.

Lemma ProcessBatch_budget_witness :
  let r := demo.proc_cmd 3 in
  let inBatch := [demo.part "10"; demo.part "-2"] in
  let w := demo.world 10 None in
  let '(_, w') := ProcessBatch r inBatch w in
  (length (calls (new_events w w')) <= 10)%nat
  /\ now w' <= now w + 8 * 500000000.
Proof.
  intros r inBatch w. pose proof (ProcessBatch_budget r inBatch w) as W.
  destruct (ProcessBatch r inBatch w) as [out w'].
  destruct W as (Hc & _ & _ & Hn & _). split; [exact Hc | exact Hn].
Defined.

Lemma execRaw_unusable_args_witness :
  let r := demo.proc_cmd 3 in
  let msg := demo.part EmptyString in
  let w := demo.world 0 None in
  execRaw r 0%nat [msg] msg w
  = ((Some "args mapping failed: failed to execute mapping: value is null", msg), w).
Proof.
  intros r msg w. destruct (execRaw_unusable_args r 0%nat [msg] msg w) as (Hmap & _).
  exact (Hmap "failed to execute mapping: value is null" eq_refl).
Defined.

Lemma normalise_idempotent_witness :
  normalise (VNumber "10") = VInt64 10
  /\ normalise (VNumber "1.5") = VString "1.5".
Proof.
  split.
  - destruct (normalise_idempotent (VNumber "10")) as (_ & _ & _ & Hint & _).
    exact (Hint "10" 10 eq_refl eq_refl).
  - destruct (normalise_idempotent (VNumber "1.5")) as (_ & _ & _ & _ & _ & Hstr).
    exact (Hstr "1.5" _ _ eq_refl eq_refl eq_refl).
Defined.

Lemma getRedisOperator_names_witness :
  getRedisOperator "INCRBY" = Err "operator not recognised: INCRBY".
Proof.
  destruct (getRedisOperator_names "INCRBY") as (_ & Hnot & _).
  apply Hnot. unfold operator_names. intros Hin.
  repeat (apply elem_of_cons in Hin as [Hin|Hin]; [discriminate Hin|]).
  by apply elem_of_nil in Hin.
Defined.

End RedisRetry.
